(** * prose: POS tagging, maximum-entropy NER training and BIO chunking

    A shallow embedding of the sequence-labelling core of the [prose]
    package: the log-space arithmetic ([addLogs], [sumLogs]), the binary
    maximum-entropy encoding ([encode], [encodeGIS]), the GIS trainer
    ([extracterFromData]), the NER feature extractor ([extract]), the
    entity chunker ([chunk], [coalesce], [parseEntities]) and the averaged
    perceptron tagger ([Tag], [predict], [featurize]).

    Conventions.
    - Go strings are byte strings: [string] (a list of [ascii] bytes).
    - Go [int] is modelled by [Z]/[nat]; every integer that occurs is a
      length, an index or a small count, far from the 64-bit range.
    - [float64] is modelled by [float64] below: the IEEE special values
      NaN, -Inf, +Inf and the finite values as real numbers with exact
      arithmetic.  Rounding, overflow of finite results and the sign of
      zero are not modelled.
    - A run-time panic (index out of range) is [None]. *)

From Stdlib Require Import Reals Lra Ascii DecimalString.
From stdpp Require Import gmap strings list.

(* ===================================================================== *)
(** * Part I: definitions                                                 *)
(* ===================================================================== *)

(** ** float64 *)

Inductive float64 : Type :=
| NaN
| NegInf
| PosInf
| Num (r : R).

Definition Rltb (a b : R) : bool := if Rlt_dec a b then true else false.
Definition Reqb (a b : R) : bool := if Req_dec_T a b then true else false.

(** [x < y], [x <= y], [x == y]: every comparison with NaN is false. *)
Definition flt (x y : float64) : bool :=
  match x, y with
  | NaN, _ | _, NaN => false
  | NegInf, NegInf => false
  | NegInf, _ => true
  | _, NegInf => false
  | PosInf, _ => false
  | Num _, PosInf => true
  | Num a, Num b => Rltb a b
  end.

Definition feq (x y : float64) : bool :=
  match x, y with
  | NegInf, NegInf | PosInf, PosInf => true
  | Num a, Num b => Reqb a b
  | _, _ => false
  end.

Definition fle (x y : float64) : bool := flt x y || feq x y.

Definition fneg (x : float64) : float64 :=
  match x with
  | NaN => NaN
  | NegInf => PosInf
  | PosInf => NegInf
  | Num a => Num (- a)
  end.

Definition fadd (x y : float64) : float64 :=
  match x, y with
  | NaN, _ | _, NaN => NaN
  | NegInf, PosInf | PosInf, NegInf => NaN
  | NegInf, _ | _, NegInf => NegInf
  | PosInf, _ | _, PosInf => PosInf
  | Num a, Num b => Num (a + b)
  end.

Definition fsub (x y : float64) : float64 := fadd x (fneg y).

(** The infinity of the sign of [r], NaN at zero (Inf * 0). *)
Definition inf_times (pos : bool) (r : R) : float64 :=
  if Reqb r 0 then NaN
  else if Bool.eqb pos (Rltb 0 r) then PosInf else NegInf.

Definition fmul (x y : float64) : float64 :=
  match x, y with
  | NaN, _ | _, NaN => NaN
  | NegInf, NegInf | PosInf, PosInf => PosInf
  | NegInf, PosInf | PosInf, NegInf => NegInf
  | PosInf, Num b => inf_times true b
  | NegInf, Num b => inf_times false b
  | Num a, PosInf => inf_times true a
  | Num a, NegInf => inf_times false a
  | Num a, Num b => Num (a * b)
  end.

Definition fdiv (x y : float64) : float64 :=
  match x, y with
  | NaN, _ | _, NaN => NaN
  | (NegInf | PosInf), (NegInf | PosInf) => NaN
  | PosInf, Num b => if Rltb b 0 then NegInf else PosInf
  | NegInf, Num b => if Rltb b 0 then PosInf else NegInf
  | Num _, (NegInf | PosInf) => Num 0
  | Num a, Num b =>
      if Reqb b 0 then inf_times true a else Num (a / b)
  end.

(** [float64(n)] for an integer [n]. *)
Definition of_int (n : Z) : float64 := Num (IZR n).

(** [math.Log2]: Log2(NaN) = NaN, Log2(x < 0) = NaN, Log2(0) = -Inf,
    Log2(+Inf) = +Inf. *)
Definition Log2 (x : float64) : float64 :=
  match x with
  | NaN | NegInf => NaN
  | PosInf => PosInf
  | Num a =>
      if Rltb a 0 then NaN
      else if Reqb a 0 then NegInf
      else Num (ln a / ln 2)
  end.

(** [math.Pow(2, y)]: Pow(2, NaN) = NaN, Pow(2, +Inf) = +Inf,
    Pow(2, -Inf) = 0. *)
Definition Pow2 (y : float64) : float64 :=
  match y with
  | NaN => NaN
  | PosInf => PosInf
  | NegInf => Num 0
  | Num b => Num (Rpower 2 b)
  end.

(** [math.Min]: Min(x, -Inf) = Min(-Inf, x) = -Inf, then
    Min(x, NaN) = Min(NaN, x) = NaN. *)
Definition Min (x y : float64) : float64 :=
  match x, y with
  | NegInf, _ | _, NegInf => NegInf
  | NaN, _ | _, NaN => NaN
  | PosInf, z | z, PosInf => z
  | Num a, Num b => if Rltb a b then Num a else Num b
  end.


(** ** Log-space arithmetic *)

(** [var maxLogDiff = math.Log2(1e-30)] *)
Definition maxLogDiff : float64 := Log2 (Num (/ 10 ^ 30)).

Definition addLogs (x y : float64) : float64 :=
  if flt x (fadd y maxLogDiff) then y
  else if flt y (fadd x maxLogDiff) then x
  else
    let base := Min x y in
    fadd base (Log2 (fadd (Pow2 (fsub x base)) (Pow2 (fsub y base)))).

Definition sumLogs (logs : list float64) : float64 :=
  match logs with
  | [] => NegInf
  | l0 :: rest => fold_left addLogs rest l0
  end.

(** ** Strings and slices *)

(** [stringInSlice]: whether [slice] contains [a]. *)
Definition stringInSlice (a : string) (slice : list string) : bool :=
  existsb (String.eqb a) slice.

(** [strings.Split(s, sep)] for a one-byte separator: the fields between
    the separators, at least one. *)
Fixpoint Split (s : string) (sep : ascii) : list string :=
  match s with
  | EmptyString => [EmptyString]
  | String c rest =>
      if Ascii.eqb c sep then EmptyString :: Split rest sep
      else
        match Split rest sep with
        | [] => [String c EmptyString]
        | f :: fs => String c f :: fs
        end
  end.

(** [strings.Join(elems, sep)] *)
Fixpoint Join (elems : list string) (sep : string) : string :=
  match elems with
  | [] => EmptyString
  | [e] => e
  | e :: rest => e +:+ sep +:+ Join rest sep
  end.

(** [strings.Replace(s, old, new, 1)] for one-byte [old] and [new]:
    the first occurrence is replaced. *)
Fixpoint Replace1 (s : string) (old new : ascii) : string :=
  match s with
  | EmptyString => EmptyString
  | String c rest =>
      if Ascii.eqb c old then String new rest
      else String c (Replace1 rest old new)
  end.

(** [strings.HasPrefix(s, prefix)] *)
Definition HasPrefix (s pre : string) : bool := String.prefix pre s.

(** [strings.Contains(s, sub)] for a one-byte [sub]. *)
Fixpoint ContainsByte (s : string) (b : ascii) : bool :=
  match s with
  | EmptyString => false
  | String c rest => Ascii.eqb c b || ContainsByte rest b
  end.

(** A loop whose body can panic. *)
Fixpoint foldM {A S : Type} (f : S → A → option S) (s : S) (l : list A)
  : option S :=
  match l with
  | [] => Some s
  | a :: l' => s' ← f s a; foldM f s' l'
  end.

(** ** Tokens and entities *)

Module Token.
Record t : Type := mk { Text : string; Tag : string; Label : string }.
End Token.

Module Entity.
Record t : Type := mk { Label : string; Text : string }.
End Entity.

(** ** The entity chunker *)

Definition parseEntities (ents : list string) : option string :=
  if stringInSlice "B-PERSON" ents && (length ents =? 2)%nat then
    (* PERSON takes precedence because it's hard to identify. *)
    Some "PERSON"
  else
    e0 ← ents !! 0%nat;
    Split e0 "-"%char !! 1%nat.

Definition coalesce (parts : list Token.t) : option Entity.t :=
  let labels := map Token.Label parts in
  let tokens := map Token.Text parts in
  l ← parseEntities labels;
  Some (Entity.mk l (Join tokens " ")).

(** The variables of the loop of [chunk]. *)
Record chunkState : Type := mkChunk {
  entities : list Entity.t;
  end_ : string;
  parts : list Token.t;
  idx : nat
}.

(** The first condition of the loop body: the token opens or continues
    an entity.  [parts[idx-1]] is read only when [idx > 0]. *)
Definition continues (st : chunkState) (tok : Token.t) : option bool :=
  let label := Token.Label tok in
  if negb (label =? "O")%string && negb (label =? end_ st)%string then
    Some true
  else if (0 <? idx st)%nat then
    prev ← parts st !! (idx st - 1)%nat;
    Some ((Token.Tag tok =? Token.Tag prev)%string
          || ((Token.Tag tok =? "CD")%string
              && negb (Token.Label prev =? "O")%string))
  else Some false.

(** The second condition: the token ends the open entity. *)
Definition closes (st : chunkState) (tok : Token.t) : bool :=
  let label := Token.Label tok in
  ((label =? "O")%string && negb (end_ st =? "")%string)
  || (label =? end_ st)%string.

Definition chunk_body (st : chunkState) (tok : Token.t) : option chunkState :=
  let label := Token.Label tok in
  c ← continues st tok;
  if c : bool then
    Some (mkChunk (entities st) (Replace1 label "B"%char "I"%char)
            (parts st ++ [tok]) (S (idx st)))
  else if closes st tok then
    (* We've found the end of an entity. *)
    let parts' :=
      if negb (label =? "O")%string then parts st ++ [tok] else parts st in
    e ← coalesce parts';
    Some (mkChunk (entities st ++ [e]) "" [] 0)
  else Some st.

Definition chunk_loop (tokens : list Token.t) : option chunkState :=
  foldM chunk_body (mkChunk [] "" [] 0) tokens.

Definition chunk (tokens : list Token.t) : option (list Entity.t) :=
  st ← chunk_loop tokens; Some (entities st).


(** ** Regular expressions

    The patterns of the package only use ASCII classes and literals, so
    they are matched byte by byte. *)

Inductive regex : Type :=
| ReNone
| ReEps
| ReByte (p : ascii → bool)
| ReCat (r1 r2 : regex)
| ReAlt (r1 r2 : regex)
| ReStar (r : regex).

Fixpoint nullable (r : regex) : bool :=
  match r with
  | ReNone => false
  | ReEps => true
  | ReByte _ => false
  | ReCat r1 r2 => nullable r1 && nullable r2
  | ReAlt r1 r2 => nullable r1 || nullable r2
  | ReStar _ => true
  end.

Fixpoint deriv (c : ascii) (r : regex) : regex :=
  match r with
  | ReNone | ReEps => ReNone
  | ReByte p => if p c then ReEps else ReNone
  | ReCat r1 r2 =>
      if nullable r1 then ReAlt (ReCat (deriv c r1) r2) (deriv c r2)
      else ReCat (deriv c r1) r2
  | ReAlt r1 r2 => ReAlt (deriv c r1) (deriv c r2)
  | ReStar r1 => ReCat (deriv c r1) (ReStar r1)
  end.

(** The whole of [s] matches [r] (a pattern between [^] and [$]). *)
Fixpoint fullMatch (r : regex) (s : string) : bool :=
  match s with
  | EmptyString => nullable r
  | String c rest => fullMatch (deriv c r) rest
  end.

Definition byte_in (lo hi : ascii) (c : ascii) : bool :=
  (nat_of_ascii lo <=? nat_of_ascii c)%nat
  && (nat_of_ascii c <=? nat_of_ascii hi)%nat.

Definition is_digit : ascii → bool := byte_in "0" "9".
Definition is_upper : ascii → bool := byte_in "A" "Z".
(** [\w] is [[0-9A-Za-z_]]. *)
Definition is_word (c : ascii) : bool :=
  is_digit c || is_upper c || byte_in "a" "z" c || Ascii.eqb c "_".

Definition ReLit (c : ascii) : regex := ReByte (Ascii.eqb c).
Definition RePlus (r : regex) : regex := ReCat r (ReStar r).
Definition ReOpt (r : regex) : regex := ReAlt r ReEps.
Definition ReAny : regex := ReByte (λ _, true).

(** ** The binary maximum-entropy classifier *)

Record encodedValue : Type := mkEnc { key : nat; value : Z }.

Record feature : Type := mkFeature {
  label : string;
  features : list string   (* [17]string *)
}.

Definition featureSet : Type := list feature.

Definition featureOrder : list string :=
  [ "bias"; "en-wordlist"; "nextpos"; "nextword"; "pos"; "pos+prevtag";
    "prefix3"; "prevpos"; "prevtag"; "prevword"; "shape"; "shape+prevtag";
    "suffix3"; "word"; "word+nextpos"; "word.lower"; "wordlen" ].

(** The scratch buffer [buf] of the Go struct only serves [byteJoin] and
    is left out. *)
Record binaryMaxentClassifier : Type := mkClassifier {
  cardinality : Z;
  labels : list string;
  mapping : gmap string nat;
  weights : list float64
}.

(** [a], [b] and [c] joined by the byte [jc]. *)
Definition byteJoin (a b c : string) (jc : ascii) : string :=
  a +:+ String jc (b +:+ String jc c).

(** The method [encode]: one indicator of value 1 for every slot whose
    joint key is in the mapping. *)
Definition m_encode (m : binaryMaxentClassifier) (feats : list string)
    (lbl : string) : list encodedValue :=
  mjoin (imap (λ i fname,
    let val := feats !!! i in
    let entry := byteJoin fname val lbl "-" in
    match mapping m !! entry with
    | Some ret => [mkEnc ret 1]
    | None => []
    end) featureOrder).

Definition sum_values (encoding : list encodedValue) : Z :=
  fold_left (λ total v, (total + value v)%Z) encoding 0%Z.

Definition encodeGIS (m : binaryMaxentClassifier) (feats : list string)
    (lbl : string) : list encodedValue :=
  let encoding := m_encode m feats lbl in
  let length := size (mapping m) in
  let total := sum_values encoding in
  encoding ++ [mkEnc length (cardinality m - total)].

(** [newMaxentClassifier]: the cardinality is one more than the number of
    distinct first dash-separated fields of the joint keys. *)
Definition keyPrefix (k : string) : string := default "" (Split k "-" !! 0%nat).

Definition newMaxentClassifier (weights : list float64)
    (mapping : gmap string nat) (labels : list string)
  : binaryMaxentClassifier :=
  let set : gset string := set_map keyPrefix (dom mapping) in
  mkClassifier (Z.of_nat (size set) + 1) labels mapping weights.

(** ** NER feature extraction *)

Definition NoneFeat : string := "None".

(** [word[len(word)-min(len(word),n):]] and [word[:min(len(word),n)]] *)
Definition lastBytes (word : string) (n : nat) : string :=
  let len := String.length word in
  String.substring (len - Nat.min len n) (Nat.min len n) word.
Definition firstBytes (word : string) (n : nat) : string :=
  String.substring 0 (Nat.min (String.length word) n) word.

Section NER.
(** [strings.ToLower] and [strings.Title] (Unicode case mappings), the
    success of [strconv.ParseFloat(s, 64)], and the English word list
    [enWordList] are taken as given. *)
Variable ToLower : string → string.
Variable Title : string → string.
Variable ParseFloatOk : string → bool.
Variable enWordList : list string.

Definition isNumeric (s : string) : bool := ParseFloatOk s.

Definition nSuffix (word : string) (length : nat) : string :=
  ToLower (lastBytes word length).

Definition nPrefix (word : string) (length : nat) : string :=
  ToLower (firstBytes word length).

Definition isBasic (word : string) : string :=
  if stringInSlice word enWordList then "True" else "False".

(** [\W+$] and [\w+$], not anchored on the left. *)
Definition reNonWordEnd : regex :=
  ReCat (ReStar ReAny) (RePlus (ReByte (λ c, negb (is_word c)))).
Definition reWordEnd : regex :=
  ReCat (ReStar ReAny) (RePlus (ReByte is_word)).

Definition shape (word : string) : string :=
  if isNumeric word then "number"
  else if fullMatch reNonWordEnd word then "punct"
  else if fullMatch reWordEnd word then
    if (ToLower word =? word)%string then "downcase"
    else if (Title word =? word)%string then "upcase"
    else "mixedcase"
  else "other".

Definition Itoa (n : nat) : string :=
  DecimalString.NilZero.string_of_uint (Nat.to_uint n).

Definition extract (i : nat) (ctx : list Token.t) (history : list string)
  : option (list string) :=
  let feats := replicate 17 "" in
  tok ← ctx !! i;
  let word := Token.Text tok in
  let prevShape := NoneFeat in
  let feats := <[0%nat := "True"]> feats in
  let feats := <[13%nat := word]> feats in
  let feats := <[4%nat := Token.Tag tok]> feats in
  let feats := <[2%nat := isBasic word]> feats in
  let feats := <[15%nat := ToLower word]> feats in
  let feats := <[12%nat := nSuffix word 3]> feats in
  let feats := <[6%nat := nPrefix word 3]> feats in
  let feats := <[10%nat := shape word]> feats in
  let feats := <[16%nat := Itoa (String.length word)]> feats in
  '(feats, prevShape) ←
    (if (i =? 0)%nat then
       let feats := <[8%nat := NoneFeat]> feats in
       let feats := <[7%nat := NoneFeat]> (<[9%nat := NoneFeat]> feats) in
       Some (feats, prevShape)
     else
       prev ← ctx !! (i - 1)%nat;
       let feats := <[9%nat := ToLower (Token.Text prev)]> feats in
       let feats := <[7%nat := Token.Tag prev]> feats in
       h ← history !! (i - 1)%nat;
       let feats := <[8%nat := h]> feats in
       if (i =? 1)%nat then Some (feats, prevShape)
       else Some (feats, shape (Token.Text prev)));
  feats ←
    (if (i =? length ctx - 1)%nat then
       Some (<[2%nat := NoneFeat]> (<[3%nat := NoneFeat]> feats))
     else
       next ← ctx !! (i + 1)%nat;
       let feats := <[3%nat := ToLower (Token.Text next)]> feats in
       Some (<[2%nat := ToLower (Token.Tag next)]> feats));
  let feats :=
    <[14%nat := Join [feats !!! 15%nat; feats !!! 2%nat] "+"]> feats in
  let feats :=
    <[5%nat := Join [feats !!! 4%nat; feats !!! 8%nat] "+"]> feats in
  let feats :=
    <[11%nat := Join [prevShape; feats !!! 8%nat] "+"]> feats in
  Some feats.

Definition extractFeatures (tokens : list Token.t) (history : list string)
  : option (list feature) :=
  mapM (λ i, l ← history !! i;
             f ← extract i tokens history;
             Some (mkFeature l f))
       (seq 0 (length tokens)).
End NER.

(** ** Building the vocabulary *)

(** [if _, found := mapping[entry]; !found { mapping[entry] = len(mapping) }] *)
Definition register (mapping : gmap string nat) (entry : string)
  : gmap string nat :=
  match mapping !! entry with
  | Some _ => mapping
  | None => <[entry := size mapping]> mapping
  end.

(** The joint keys of a training example, in slot order. *)
Definition entryKeys (entry : feature) : list string :=
  imap (λ i fname, Join [fname; features entry !!! i; label entry] "-")
    featureOrder.

(** One iteration of the loop of [encode] over the corpus.  The map
    [count] of the source is only written, never read, and is left out. *)
Definition encode_entry (st : gmap string nat * list string) (entry : feature)
  : gmap string nat * list string :=
  let '(mapping, labels) := st in
  let labels :=
    if stringInSlice (label entry) labels then labels
    else labels ++ [label entry] in
  (foldl register mapping (entryKeys entry), labels).

(** The function [encode]: the vocabulary and label set of a corpus. *)
Definition encode (corpus : featureSet) : binaryMaxentClassifier :=
  let '(mapping, labels) := foldl encode_entry (∅, []) corpus in
  newMaxentClassifier [] mapping labels.

(** ** Dense vectors ([mat.VecDense]) and slices of [float64]

    Reading or writing outside the vector panics. *)

Definition AtVec (v : list float64) (i : nat) : option float64 := v !! i.

Definition SetVec (v : list float64) (i : nat) (x : float64)
  : option (list float64) :=
  if decide (i < length v)%nat then Some (<[i := x]> v) else None.

(** [v[i] += x] *)
Definition addAt (v : list float64) (i : nat) (x : float64)
  : option (list float64) :=
  old ← AtVec v i; SetVec v i (fadd old x).

(** [SubVec(a, b)]: the element-wise difference; the lengths must agree. *)
Definition SubVec (a b : list float64) : option (list float64) :=
  if decide (length a = length b) then Some (zip_with fsub a b) else None.

(** [ScaleVec(alpha, a)] *)
Definition ScaleVec (alpha : float64) (a : list float64) : list float64 :=
  map (fmul alpha) a.

(** [v.At(index, 0) == 0.0] *)
Definition isZeroAt (v : list float64) (index : nat) : bool :=
  match AtVec v index with
  | Some x => feq x (Num 0)
  | None => false
  end.

Definition empiricalCount (corpus : featureSet)
    (encoding : binaryMaxentClassifier) : option (list float64) :=
  let count := replicate (size (mapping encoding) + 1) (Num 0) in
  foldM (λ count entry,
           foldM (λ count encoded,
                    addAt count (key encoded) (of_int (value encoded)))
             count (encodeGIS encoding (features entry) (label entry)))
    count corpus.

(** ** Probability distributions over labels *)

Record probEnc : Type := mkProbEnc {
  prob : float64;
  vec : list encodedValue
}.

Module mappedProbDist.
Record t : Type := mk { dict : gmap string probEnc; log : bool }.

Definition prob (m : t) (label : string) : float64 :=
  match dict m !! label with
  | Some p => Pow2 (prob p)
  | None => Num 0
  end.
End mappedProbDist.

Record entityExtracter : Type := mkExtracter {
  model : binaryMaxentClassifier
}.

Definition newTrainedEntityExtracter (model : binaryMaxentClassifier)
  : entityExtracter := mkExtracter model.

(** [total += weights[entry.key] * float64(entry.value)] over [vec] *)
Definition rawScore (weights : list float64) (vec : list encodedValue)
  : option float64 :=
  foldM (λ total entry,
           w ← weights !! key entry;
           Some (fadd total (fmul w (of_int (value entry)))))
    (Num 0) vec.

Section GIS.
(** Go visits the entries of a map in an unspecified order.
    [rangeOrder] is the order in which the entries of a label dictionary
    are visited, given its entries in key order. *)
Variable rangeOrder : list (string * probEnc) → list (string * probEnc).

Definition rangeDict (dict : gmap string probEnc) : list (string * probEnc) :=
  rangeOrder (map_to_list dict).

(** The entries of [dict] are distinct [probEnc] objects, as
    [probClassify] allocates them. *)
Definition newMappedProbDist (dict : gmap string probEnc) (normalize : bool)
  : mappedProbDist.t :=
  if normalize then
    let values := map (λ kv, prob kv.2) (rangeDict dict) in
    let sum := sumLogs values in
    if fle sum NegInf then
      let p := Log2 (fdiv (Num 1) (of_int (Z.of_nat (size dict)))) in
      mappedProbDist.mk ((λ pe, mkProbEnc p (vec pe)) <$> dict) true
    else
      mappedProbDist.mk
        ((λ pe, mkProbEnc (fsub (prob pe) sum) (vec pe)) <$> dict) true
  else mappedProbDist.mk dict true.

Definition probClassify (e : entityExtracter) (feats : list string)
  : option mappedProbDist.t :=
  scores ← foldM (λ (scores : gmap string probEnc) lbl,
                    let vec := encodeGIS (model e) feats lbl in
                    total ← rawScore (weights (model e)) vec;
                    Some (<[lbl := mkProbEnc total vec]> scores))
              ∅ (labels (model e));
  Some (newMappedProbDist scores true).

Definition estCount (classifier : entityExtracter) (corpus : featureSet)
    (encoder : binaryMaxentClassifier) : option (list float64) :=
  let count := replicate (size (mapping encoder) + 1) (Num 0) in
  foldM (λ count entry,
           pdist ← probClassify classifier (features entry);
           foldM (λ count kv,
                    let pe : probEnc := kv.2 in
                    let prob := Pow2 (prob pe) in
                    foldM (λ count enc,
                             old ← AtVec count (key enc);
                             let out :=
                               fadd old (fmul prob (of_int (value enc))) in
                             SetVec count (key enc) out)
                      count (vec pe))
             count (rangeDict (mappedProbDist.dict pdist)))
    count corpus.

(** ** The GIS trainer *)

(** What [extracterFromData] holds when it enters the loop of rounds:
    the classifier with its initial weights, the empirical counts
    replaced by their log2, the unattested indices and [cInv]. *)
Record gisSetup : Type := mkSetup {
  classifier0 : entityExtracter;
  empfreq : list float64;
  unattested : list nat;
  cInv : float64
}.

Definition setWeights (m : binaryMaxentClassifier) (w : list float64)
  : binaryMaxentClassifier :=
  mkClassifier (cardinality m) (labels m) (mapping m) w.

Definition gisInit (corpus : featureSet) : option gisSetup :=
  let encoding := encode corpus in
  let cInv := fdiv (Num 1) (of_int (cardinality encoding)) in
  empfreq ← empiricalCount corpus encoding;
  let rows := length empfreq in
  let unattested := filter (λ index, isZeroAt empfreq index) (seq 0 rows) in
  let empfreq := map Log2 empfreq in
  let weights := replicate rows (Num 0) in
  let weights := foldl (λ w idx, <[idx := NegInf]> w) weights unattested in
  let encoding := setWeights encoding weights in
  Some (mkSetup (newTrainedEntityExtracter encoding) empfreq unattested cInv).

(** One round of the loop.  [classifier.model] and [encoding] are the
    same object, so the round reads and updates one weight slice. *)
Definition gisRound (corpus : featureSet) (s : gisSetup)
    (classifier : entityExtracter) : option entityExtracter :=
  est ← estCount classifier corpus (model classifier);
  est ← foldM (λ est idx, old ← AtVec est idx; SetVec est idx (fadd old (Num 1)))
         est (unattested s);
  let est := map Log2 est in
  let weights := weights (model classifier) in
  est ← SubVec (empfreq s) est;
  let est := ScaleVec (cInv s) est in
  weights ← foldM (λ (w : list float64) index,
                     old ← w !! index;
                     e ← AtVec est index;
                     Some (<[index := fadd old e]> w))
             weights (seq 0 (length weights));
  Some (mkExtracter (setWeights (model classifier) weights)).

Fixpoint gisLoop (rounds : nat) (corpus : featureSet) (s : gisSetup)
    (classifier : entityExtracter) : option entityExtracter :=
  match rounds with
  | O => Some classifier
  | S n =>
      classifier ← gisRound corpus s classifier;
      gisLoop n corpus s classifier
  end.

(** The classifier after [rounds] rounds. *)
Definition trainRounds (rounds : nat) (corpus : featureSet)
  : option entityExtracter :=
  s ← gisInit corpus; gisLoop rounds corpus s (classifier0 s).

Definition extracterFromData (corpus : featureSet) : option entityExtracter :=
  trainRounds 100 corpus.
End GIS.

(** ** The averaged perceptron tagger *)

(** [none] matches, between [^] and [$], one of: 0; a star, a word byte
    or question mark, a star; a star, a dash, one to three digits; a
    star, one or more capitals, a star, a dash, one to three digits; a
    star.  [keep] matches a dash, three capitals, a dash. *)
Definition reDigits13 : regex :=
  ReCat (ReByte is_digit) (ReCat (ReOpt (ReByte is_digit)) (ReOpt (ReByte is_digit))).

Definition none : regex :=
  ReAlt (ReLit "0")
    (ReAlt (ReCat (ReLit "*")
              (ReCat (ReByte (λ c, is_word c || Ascii.eqb c "?")) (ReLit "*")))
       (ReAlt (ReCat (ReLit "*") (ReCat (ReLit "-") reDigits13))
          (ReAlt (ReCat (ReLit "*")
                    (ReCat (RePlus (ReByte is_upper))
                       (ReCat (ReLit "*") (ReCat (ReLit "-") reDigits13))))
             (ReLit "*")))).

Definition keep : regex :=
  ReCat (ReLit "-")
    (ReCat (ReByte is_upper)
       (ReCat (ReByte is_upper) (ReCat (ReByte is_upper) (ReLit "-")))).

Definition emoticons : gset string :=
  list_to_set
    [ "(-8"; "(-;"; "(-_-)"; "(._.)"; "(:"; "(="; "(o:"; "(¬_¬)"; "(ಠ_ಠ)";
      "(╯°□°）╯︵┻━┻"; "-__-"; "8-)"; "8-D"; "8D"; ":("; ":(("; ":(((";
      ":()"; ":)))"; ":-)"; ":-))"; ":-)))"; ":-*"; ":-/"; ":-X"; ":-]";
      ":-o"; ":-p"; ":-x"; ":-|"; ":-}"; ":0"; ":3"; ":P"; ":]"; ":`(";
      ":`)"; ":`-("; ":o"; ":o)"; "=("; "=)"; "=D"; "=|"; "@_@"; "O.o";
      "O_o"; "V_V"; "XDD"; "[-:"; "^___^"; "o_0"; "o_O"; "o_o"; "v_v"; "xD";
      "xDD"; "¯\(ツ)/¯" ].

(** The fields [classMap], [stamps] and [totals] of the Go struct are
    not read by tagging and are left out. *)
Record averagedPerceptron : Type := mkPerceptron {
  classes : list string;
  tagMap : gmap string string;
  linearWeights : gmap string (list float64)
}.

Record PerceptronTagger : Type := mkTagger { tagger_model : averagedPerceptron }.

(** [string(b)] for a byte [b]: the UTF-8 encoding of the code point
    [b]. *)
Definition byteString (b : ascii) : string :=
  let n := nat_of_ascii b in
  if (n <? 128)%nat then String b ""
  else String (ascii_of_nat (192 + n / 64))
         (String (ascii_of_nat (128 + n mod 64)) "").

(** [strconv.Atoi(s)] returns no error: an optional sign and one or more
    decimal digits.  (A value out of range is an error too; that takes
    19 bytes or more, and [normalize] only uses the answer for words of
    4 bytes and for one byte.) *)
Definition allDigits (s : string) : bool :=
  forallb is_digit (String.list_ascii_of_string s).

Definition AtoiOk (s : string) : bool :=
  match s with
  | EmptyString => false
  | String c rest =>
      if Ascii.eqb c "-" || Ascii.eqb c "+" then
        negb (String.eqb rest "") && allDigits rest
      else allDigits s
  end.

Section Tagger.
(** [strings.ToLower] is taken as given. *)
Variable ToLower : string → string.

Definition normalize (word : string) : string :=
  match word with
  | EmptyString => word
  | String w0 _ =>
      let first := byteString w0 in
      if ContainsByte word "-" && negb (first =? "-")%string then "!HYPHEN"
      else if AtoiOk word && (String.length word =? 4)%nat then "!YEAR"
      else if AtoiOk first then "!DIGITS"
      else ToLower word
  end.

Definition featurize (i : nat) (ctx : list string) (w p1 p2 : string)
  : option (list string) :=
  let i := Nat.min (length ctx - 2) (i + 2) in
  if (length ctx <? 2)%nat then None else
  if (i <? 2)%nat then None else
  cm1 ← ctx !! (i - 1)%nat;
  cp1 ← ctx !! (i + 1)%nat;
  w0 ← match w with EmptyString => None | String c _ => Some c end;
  c0 ← ctx !! i;
  cm2 ← ctx !! (i - 2)%nat;
  cp2 ← ctx !! (i + 2)%nat;
  Some [ "bias";
         Join ["i suffix"; lastBytes w 3] " ";
         Join ["i pref1"; byteString w0] " ";
         Join ["i-1 tag"; p1] " ";
         Join ["i-2 tag"; p2] " ";
         Join ["i tag+i-2 tag"; p1; p2] " ";
         Join ["i word"; c0] " ";
         Join ["i-1 tag+i word"; p1; c0] " ";
         Join ["i-1 word"; cm1] " ";
         Join ["i-1 suffix"; lastBytes cm1 3] " ";
         Join ["i-2 word"; cm2] " ";
         Join ["i+1 word"; cp1] " ";
         Join ["i+1 suffix"; lastBytes cp1 3] " ";
         Join ["i+2 word"; cp2] " " ].

(** [for label, weight := range weights { scores[label] += weight }] *)
Fixpoint addRow (scores : list float64) (lbl : nat) (weights : list float64)
  : option (list float64) :=
  match weights with
  | [] => Some scores
  | weight :: rest =>
      old ← scores !! lbl;
      addRow (<[lbl := fadd old weight]> scores) (S lbl) rest
  end.

(** The loop of [max]: [class] and [max] so far, [lbl] the next index. *)
Fixpoint maxFrom (scores : list float64) (lbl class : nat) (max : float64)
  : nat :=
  match scores with
  | [] => class
  | value :: rest =>
      if flt max value then maxFrom rest (S lbl) lbl value
      else maxFrom rest (S lbl) class max
  end.

Definition max (scores : list float64) : nat := maxFrom scores 0 0 NegInf.

Definition predict (m : averagedPerceptron) (feats : list string)
  : option string :=
  let scores := replicate (length (classes m)) (Num 0) in
  scores ← foldM (λ scores feat,
                    match linearWeights m !! feat with
                    | None => Some scores
                    | Some weights => addRow scores 0 weights
                    end) scores feats;
  classes m !! max scores.

(** The variables of the loop of [Tag]: the two previous tags and the
    tokens tagged so far. *)
Record tagState : Type := mkTagState {
  p1 : string;
  p2 : string;
  tagged : list Token.t
}.

Definition tagWord (pt : PerceptronTagger) (context : list string) (i : nat)
    (word p1 p2 : string) : option string :=
  if (word =? "-")%string then Some "-"
  else if bool_decide (word ∈ emoticons) then Some "SYM"
  else if HasPrefix word "@" then Some "NN"
  else if fullMatch none word then Some "-NONE-"
  else if fullMatch keep word then Some word
  else
    match tagMap (tagger_model pt) !! word with
    | Some tag => Some tag
    | None =>
        feats ← featurize i context word p1 p2;
        predict (tagger_model pt) feats
    end.

Definition tagContext (tokens : list Token.t) : list string :=
  ["-START-"; "-START2-"]
  ++ map (λ t, normalize (Token.Text t)) tokens
  ++ ["-END-"; "-END2-"].

Definition Tag_body (pt : PerceptronTagger) (context : list string)
    (st : tagState) (i : nat) (tok : Token.t) : option tagState :=
  let word := Token.Text tok in
  tag ← tagWord pt context i word (p1 st) (p2 st);
  Some (mkTagState tag (p1 st)
          (tagged st ++ [Token.mk (Token.Text tok) tag (Token.Label tok)])).

(** The loop of [Tag] from token index [i] on. *)
Fixpoint Tag_loop (pt : PerceptronTagger) (context : list string)
    (st : tagState) (i : nat) (tokens : list Token.t) : option tagState :=
  match tokens with
  | [] => Some st
  | tok :: rest =>
      st' ← Tag_body pt context st i tok;
      Tag_loop pt context st' (S i) rest
  end.

Definition Tag (pt : PerceptronTagger) (tokens : list Token.t)
  : option (list Token.t) :=
  st ← Tag_loop pt (tagContext tokens) (mkTagState "-START-" "-START2-" [])
         0 tokens;
  Some (tagged st).

(** *** The decoding rule of the specification *)





End Tagger.

(** ** Notions used in the statements and proofs of Part II *)

(** The configured floor: [maxLogDiff] is the finite negative number
    [log2(1e-30)]. *)
Definition logFloor : R := (ln (/ 10 ^ 30) / ln 2)%R.



(** Acme/B-ORG, Smith/B-PERSON and a closing O token; the tags differ. *)
Definition c9_tokens : list Token.t :=
  [ Token.mk "Acme" "NNP" "B-ORG";
    Token.mk "Smith" "VBD" "B-PERSON";
    Token.mk "." "." "O" ].

(** Processing [more] from state [st] never takes the closing branch:
    every token opens or continues the entity. *)
Fixpoint stays_open (st : chunkState) (more : list Token.t) : bool :=
  match more with
  | [] => true
  | tok :: rest =>
      match continues st tok, chunk_body st tok with
      | Some true, Some st' => stays_open st' rest
      | _, _ => false
      end
  end.


(** Indices are dense: every value of the map is below its size, and
    every number below its size is a value. *)
Definition dense (M : gmap string nat) : Prop :=
  (∀ k v, M !! k = Some v → (v < size M)%nat)
  ∧ (∀ v, (v < size M)%nat → ∃ k, M !! k = Some v).

(** The map built by the loop of [encode]. *)
Definition vocabulary (corpus : featureSet) : gmap string nat :=
  (foldl encode_entry (∅, []) corpus).1.

(** The entries [encodeGIS] yields over the corpus, each example encoded
    with its own label. *)
Definition examples (m : binaryMaxentClassifier) (corpus : featureSet)
  : list encodedValue :=
  corpus ≫= (λ e, encodeGIS m (features e) (label e)).

(** How many entries have key [idx]. *)
Definition hits (idx : nat) (encs : list encodedValue) : nat :=
  length (filter (λ x, key x = idx) encs).

(** The weight slice [extracterFromData] builds before the first round:
    zeros, then -Inf at the unattested indices. *)
Definition initialWeights (counts : list float64) : list float64 :=
  foldl (λ w idx, <[idx := NegInf]> w)
    (replicate (length counts) (Num 0))
    (filter (λ index, isZeroAt counts index) (seq 0 (length counts))).

(** Two copies of one example with label O and empty feature values. *)
Definition c2_example : feature := mkFeature "O" (replicate 17 "").

Definition c2_corpus : featureSet := [c2_example; c2_example].



(** A tagger with classes NN and VB and weights 1 and 2 for the bias
    feature, and the sentence "-" "run". *)
Definition c8_tagger : PerceptronTagger :=
  mkTagger (mkPerceptron ["NN"; "VB"] ∅ (<["bias" := [Num 1; Num 2]]> ∅)).

Definition c8_tokens : list Token.t :=
  [Token.mk "-" "" ""; Token.mk "run" "" ""].

(** The classifier indexes its weights within bounds: every index of the
    mapping is below its size, and there is one weight per index and one
    for the correction feature. *)
Definition sized (m : binaryMaxentClassifier) : Prop :=
  (∀ k v, mapping m !! k = Some v → (v < size (mapping m))%nat)
  ∧ length (weights m) = (size (mapping m) + 1)%nat.

(** A label of the BIO scheme: O, or a label with a dash. *)
Definition bioLabel (tok : Token.t) : Prop :=
  Token.Label tok = "O" ∨ ContainsByte (Token.Label tok) "-" = true.

(** What holds of the loop variables of [chunk] on BIO labels: [idx]
    counts the open tokens, [end] is set once a token is open, and the
    first open token has a label with a dash. *)
Definition chunk_safe (st : chunkState) : Prop :=
  idx st = length (parts st)
  ∧ (parts st = [] → end_ st = "")
  ∧ (∀ p, parts st !! 0%nat = Some p →
          ContainsByte (Token.Label p) "-" = true).

(** A tagging model whose tables fit together: there is a class, and no
    weight row is longer than the class list. *)
Definition fittingRows (m : averagedPerceptron) : Prop :=
  classes m ≠ []
  ∧ map_Forall (λ _ ws, (length ws ≤ length (classes m))%nat)
      (linearWeights m).

(* ===================================================================== *)
(** * Part II: properties                                                 *)
(* ===================================================================== *)

(** ** float64 comparisons and arithmetic on finite values *)

Lemma Rltb_true a b : (a < b)%R → Rltb a b = true.
Proof. intros H. unfold Rltb. destruct (Rlt_dec a b); [done | contradiction]. Qed.

Lemma Rltb_false a b : ¬ (a < b)%R → Rltb a b = false.
Proof. intros H. unfold Rltb. destruct (Rlt_dec a b); [contradiction | done]. Qed.


Lemma Reqb_true a b : a = b → Reqb a b = true.
Proof. intros H. unfold Reqb. destruct (Req_dec_T a b); [done | contradiction]. Qed.

Lemma Reqb_false a b : a ≠ b → Reqb a b = false.
Proof. intros H. unfold Reqb. destruct (Req_dec_T a b); [contradiction | done]. Qed.


Lemma ln2_pos : (0 < ln 2)%R.
Proof. rewrite <- ln_1. apply ln_increasing; lra. Qed.

Lemma Rpower2_pos b : (0 < Rpower 2 b)%R.
Proof. unfold Rpower. apply exp_pos. Qed.

Lemma Log2_pos a : (0 < a)%R → Log2 (Num a) = Num (ln a / ln 2).
Proof.
  intros Ha. unfold Log2.
  rewrite Rltb_false by lra. rewrite Reqb_false by lra. reflexivity.
Qed.

Lemma maxLogDiff_Num : maxLogDiff = Num logFloor.
Proof.
  unfold maxLogDiff. apply Log2_pos.
  apply Rinv_0_lt_compat. apply pow_lt. lra.
Qed.

Lemma logFloor_neg : (logFloor < 0)%R.
Proof.
  unfold logFloor.
  assert (H10 : (1 < 10 ^ 30)%R).
  { apply Rlt_pow_R1; [lra | lia]. }
  assert (Hl : (ln (/ 10 ^ 30) < 0)%R).
  { rewrite <- ln_1. apply ln_increasing.
    - apply Rinv_0_lt_compat. lra.
    - rewrite <- Rinv_1. apply Rinv_lt_contravar; lra. }
  pose proof ln2_pos.
  apply Rmult_lt_reg_r with (ln 2); [done |].
  unfold Rdiv. rewrite Rmult_assoc, Rinv_l by lra. lra.
Qed.

(** log2(2^b * t) = b + log2 t *)
Lemma log2_shift b t :
  (0 < t)%R → (b + ln t / ln 2 = ln (Rpower 2 b * t) / ln 2)%R.
Proof.
  intros Ht. pose proof ln2_pos.
  rewrite ln_mult by (auto using Rpower2_pos).
  unfold Rpower. rewrite ln_exp. field. lra.
Qed.

Lemma addLogs_Num a b :
  addLogs (Num a) (Num b) =
    if Rltb a (b + logFloor) then Num b
    else if Rltb b (a + logFloor) then Num a
    else Num (ln (Rpower 2 a + Rpower 2 b) / ln 2).
Proof.
  unfold addLogs. rewrite maxLogDiff_Num. simpl.
  destruct (Rltb a (b + logFloor)); [done |].
  destruct (Rltb b (a + logFloor)); [done |].
  assert (Hshift : ∀ base,
    fadd (Num base)
      (Log2 (Num (Rpower 2 (a + - base) + Rpower 2 (b + - base)))) =
    Num (ln (Rpower 2 a + Rpower 2 b) / ln 2)).
  { intros base.
    pose proof (Rpower2_pos (a + - base)). pose proof (Rpower2_pos (b + - base)).
    rewrite Log2_pos by lra. simpl. f_equal.
    rewrite log2_shift by lra. f_equal. f_equal.
    rewrite Rmult_plus_distr_l, <- !Rpower_plus.
    f_equal; f_equal; lra. }
  destruct (Rltb a b); simpl; apply Hshift.
Qed.

(** C4. [addLogs] is commutative on finite arguments; when the two
    arguments are within the floor [|log2(1e-30)|] of each other it is
    [log2(2^x + 2^y)]; and when the smaller one is more than the floor
    below the larger it is the larger one. *)
Theorem addLogs_spec (x y : R) :
  addLogs (Num x) (Num y) = addLogs (Num y) (Num x)
  ∧ ((Rabs (x - y) <= Rabs logFloor)%R →
       addLogs (Num x) (Num y) = Log2 (fadd (Pow2 (Num x)) (Pow2 (Num y))))
  ∧ ((Rabs logFloor < Rabs (x - y))%R →
       addLogs (Num x) (Num y) = Num (Rmax x y)).
Proof.
  pose proof logFloor_neg as Hneg.
  rewrite (Rabs_left logFloor) by done.
  rewrite !addLogs_Num.
  split; [| split].
  - destruct (Rlt_dec x (y + logFloor)) as [H1 | H1];
      destruct (Rlt_dec y (x + logFloor)) as [H2 | H2].
    + lra.
    + rewrite (Rltb_true _ _ H1), (Rltb_false _ _ H2). done.
    + rewrite (Rltb_false _ _ H1), (Rltb_true _ _ H2). done.
    + rewrite (Rltb_false _ _ H1), (Rltb_false _ _ H2).
      by rewrite (Rplus_comm (Rpower 2 y)).
  - intros Hin.
    assert (¬ (x < y + logFloor)%R ∧ ¬ (y < x + logFloor)%R) as [H1 H2].
    { unfold Rabs in Hin. destruct (Rcase_abs (x - y)); lra. }
    rewrite (Rltb_false _ _ H1), (Rltb_false _ _ H2).
    change (fadd (Pow2 (Num x)) (Pow2 (Num y)))
      with (Num (Rpower 2 x + Rpower 2 y)).
    pose proof (Rpower2_pos x). pose proof (Rpower2_pos y).
    by rewrite Log2_pos by lra.
  - intros Hout. unfold Rabs in Hout. destruct (Rcase_abs (x - y)).
    + rewrite Rltb_true by lra. by rewrite Rmax_right by lra.
    + rewrite Rltb_false by lra. rewrite Rltb_true by lra.
      by rewrite Rmax_left by lra.
Qed.

(** The three parts of [addLogs_spec] at 0 and -1 (within the floor) and
    at 0 and -100 (beyond it). *)
Lemma addLogs_spec_witness :
  addLogs (Num 0) (Num (-1)) = addLogs (Num (-1)) (Num 0)
  ∧ addLogs (Num 0) (Num (-1)) = Log2 (fadd (Pow2 (Num 0)) (Pow2 (Num (-1))))
  ∧ addLogs (Num 0) (Num (-100)) = Num (Rmax 0 (-100)).
Proof.
  assert (Hscale : ∀ n : nat, (INR n * ln 2 = ln (2 ^ n))%R).
  { intros n. by rewrite ln_pow by lra. }
  assert (Hfloor : (-100 < logFloor < -1)%R).
  { unfold logFloor. pose proof ln2_pos as H2.
    rewrite ln_Rinv by (apply pow_lt; lra).
    assert (Hlo : (ln (10 ^ 30) < 100 * ln 2)%R).
    { replace 100%R with (INR 100) by (by rewrite INR_IZR_INZ).
      rewrite Hscale. apply ln_increasing; [apply pow_lt; lra |].
      rewrite !pow_IZR. apply IZR_lt. by vm_compute. }
    assert (Hhi : (1 * ln 2 < ln (10 ^ 30))%R).
    { replace 1%R with (INR 1) by (by rewrite INR_IZR_INZ).
      rewrite Hscale. apply ln_increasing; [apply pow_lt; lra |].
      rewrite !pow_IZR. apply IZR_lt. by vm_compute. }
    split.
    - apply Rmult_lt_reg_r with (ln 2); [done |].
      unfold Rdiv. rewrite Rmult_assoc, Rinv_l by lra. lra.
    - apply Rmult_lt_reg_r with (ln 2); [done |].
      unfold Rdiv. rewrite Rmult_assoc, Rinv_l by lra. lra. }
  destruct (addLogs_spec 0 (-1)) as (Hc & Hin & _).
  destruct (addLogs_spec 0 (-100)) as (_ & _ & Hout).
  split; [exact Hc | split].
  - apply Hin. rewrite (Rabs_left logFloor) by lra.
    rewrite Rabs_right by lra. lra.
  - apply Hout. rewrite (Rabs_left logFloor) by lra.
    rewrite Rabs_right by lra. lra.
Defined.

(** ** The entity chunker *)

Lemma stringInSlice_spec a slice : stringInSlice a slice = true ↔ a ∈ slice.
Proof.
  unfold stringInSlice. rewrite existsb_exists, list_elem_of_In. split.
  - intros (x & Hin & Heq). apply String.eqb_eq in Heq. by subst.
  - intros Hin. exists a. split; [done | apply String.eqb_refl].
Qed.

Lemma foldM_app {A S : Type} (f : S → A → option S) s l1 l2 :
  foldM f s (l1 ++ l2) = s' ← foldM f s l1; foldM f s' l2.
Proof.
  revert s. induction l1 as [| a l1 IH]; intros s; simpl; [done |].
  destruct (f s a) as [s1 |]; simpl; [apply IH | done].
Qed.







Lemma stays_open_run st more :
  stays_open st more = true →
  ∃ st', foldM chunk_body st more = Some st'
         ∧ entities st' = entities st
         ∧ parts st' = parts st ++ more.
Proof.
  revert st. induction more as [| tok rest IH]; intros st H; simpl in *.
  - exists st. by rewrite app_nil_r.
  - destruct (continues st tok) as [[|] |] eqn:Hc; try done.
    unfold chunk_body in *. rewrite Hc in *. simpl in *.
    destruct (IH _ H) as (st' & Hrun & He & Hp).
    exists st'. simpl in *. split; [done |]. split; [done |].
    by rewrite Hp, <- app_assoc.
Qed.

(** C10. When the token sequence ends while an entity is open, that is,
    the tokens after [pre] all open or continue an entity and none closes
    it, [chunk] emits nothing for them: its result is the list of entities
    already emitted after [pre], and the open tokens are dropped. *)
Theorem chunk_open_span_not_emitted (pre more : list Token.t) (st : chunkState) :
  chunk_loop pre = Some st →
  stays_open st more = true →
  chunk (pre ++ more) = Some (entities st)
  ∧ chunk (pre ++ more) = chunk pre.
Proof.
  intros Hpre Hopen.
  destruct (stays_open_run _ _ Hopen) as (st' & Hrun & He & _).
  unfold chunk, chunk_loop in *.
  rewrite foldM_app, Hpre. simpl. rewrite Hrun. simpl. by rewrite He.
Qed.

(** A single token labelled B-PERSON yields no entity. *)
Lemma chunk_open_span_not_emitted_witness :
  chunk ([] ++ [Token.mk "Pierre" "NNP" "B-PERSON"]) = Some []
  ∧ chunk ([] ++ [Token.mk "Pierre" "NNP" "B-PERSON"]) = chunk [].
Proof.
  apply (chunk_open_span_not_emitted [] [Token.mk "Pierre" "NNP" "B-PERSON"]
           (mkChunk [] "" [] 0)); reflexivity.
Defined.

(** ** The joint-feature encoding *)

Lemma sum_values_from (encoding : list encodedValue) (z : Z) :
  fold_left (λ total v, (total + value v)%Z) encoding z
  = (z + sum_values encoding)%Z.
Proof.
  unfold sum_values. revert z.
  induction encoding as [| e l IH]; intros z; simpl; [lia |].
  rewrite IH, (IH (0 + value e)%Z). lia.
Qed.

Lemma sum_values_app (l1 l2 : list encodedValue) :
  sum_values (l1 ++ l2) = (sum_values l1 + sum_values l2)%Z.
Proof.
  unfold sum_values at 1. rewrite fold_left_app.
  fold (sum_values l1). by rewrite sum_values_from.
Qed.

Lemma sum_values_ones (l : list encodedValue) :
  Forall (λ e, value e = 1%Z) l → sum_values l = Z.of_nat (length l).
Proof.
  induction 1 as [| e l He _ IH]; [done |].
  change (e :: l) with ([e] ++ l). rewrite sum_values_app, IH.
  unfold sum_values. simpl. lia.
Qed.

(** The indicators of a loop that looks a key up per slot. *)
Lemma indicators_keys (g : nat → string → option nat) (names : list string) :
  map key (mjoin (imap (λ i x, match g i x with
                               | Some ret => [mkEnc ret 1]
                               | None => []
                               end) names))
  = omap (λ o, o) (imap g names).
Proof.
  revert g. induction names as [| x names IH]; intros g; [done |].
  simpl. rewrite map_app. specialize (IH (g ∘ S)).
  destruct (g 0%nat x); simpl; by f_equal.
Qed.

Lemma indicators_ones (g : nat → string → option nat) (names : list string) :
  Forall (λ e, value e = 1%Z)
    (mjoin (imap (λ i x, match g i x with
                         | Some ret => [mkEnc ret 1]
                         | None => []
                         end) names)).
Proof.
  revert g. induction names as [| x names IH]; intros g; [constructor |].
  simpl. apply Forall_app. split; [| apply (IH (g ∘ S))].
  destruct (g 0%nat x); repeat constructor.
Qed.

Lemma m_encode_ones m feats lbl :
  Forall (λ e, value e = 1%Z) (m_encode m feats lbl).
Proof. apply indicators_ones. Qed.

Lemma encodeGIS_eq m feats lbl :
  encodeGIS m feats lbl =
    m_encode m feats lbl
    ++ [mkEnc (size (mapping m))
          (cardinality m - Z.of_nat (length (m_encode m feats lbl)))].
Proof.
  unfold encodeGIS. by rewrite (sum_values_ones _ (m_encode_ones m feats lbl)).
Qed.

(** C5. The values of the entries of [encodeGIS] sum to the cardinality of
    the classifier: the plain encoding holds one indicator of value 1 for
    each slot whose joint key is mapped, in slot order, and the entry
    appended at the final index [len(mapping)] has value cardinality minus
    the number of indicators. *)
Theorem encodeGIS_sum_cardinality (m : binaryMaxentClassifier)
    (feats : list string) (lbl : string) :
  sum_values (encodeGIS m feats lbl) = cardinality m
  ∧ Forall (λ e, value e = 1%Z) (m_encode m feats lbl)
  ∧ map key (m_encode m feats lbl)
    = omap (λ o, o)
        (imap (λ i fname, mapping m !! byteJoin fname (feats !!! i) lbl "-")
           featureOrder)
  ∧ encodeGIS m feats lbl =
      m_encode m feats lbl
      ++ [mkEnc (size (mapping m))
            (cardinality m - Z.of_nat (length (m_encode m feats lbl)))].
Proof.
  split; [| split; [apply m_encode_ones | split]].
  - rewrite encodeGIS_eq, sum_values_app.
    rewrite (sum_values_ones _ (m_encode_ones m feats lbl)).
    unfold sum_values. simpl. lia.
  - unfold m_encode.
    apply (indicators_keys
             (λ i fname, mapping m !! byteJoin fname (feats !!! i) lbl "-")).
  - apply encodeGIS_eq.
Qed.

(** ** NER feature extraction *)

Section NERProps.
Variable ToLower : string → string.
Variable Title : string → string.
Variable ParseFloatOk : string → bool.
Variable enWordList : list string.

(** C3 fails on the code. Slot 1 carries the feature name "en-wordlist",
    but [extract] never writes it: the result of [isBasic] is stored in
    slot 2 ("nextpos") and overwritten there, and slot 1 keeps the empty
    string, which is neither "True" nor "False". *)
Theorem extract_wordlist_slot_unset (i : nat) (ctx : list Token.t)
    (history feats : list string) :
  extract ToLower Title ParseFloatOk enWordList i ctx history = Some feats →
  featureOrder !! 1%nat = Some "en-wordlist"
  ∧ feats !! 1%nat = Some ""
  ∧ length feats = 17%nat.
Proof.
  intros H. split; [done |]. unfold extract in H.
  destruct (ctx !! i) as [tok |]; simpl in H; [| done].
  destruct (i =? 0)%nat; simpl in H.
  - destruct (i =? length ctx - 1)%nat; simpl in H.
    + inversion H; subst; clear H. done.
    + destruct (ctx !! (i + 1)%nat); simpl in H; [| done].
      inversion H; subst; clear H. done.
  - destruct (ctx !! (i - 1)%nat); simpl in H; [| done].
    destruct (history !! (i - 1)%nat); simpl in H; [| done].
    destruct (i =? 1)%nat; simpl in H.
    + destruct (i =? length ctx - 1)%nat; simpl in H.
      * inversion H; subst; clear H. done.
      * destruct (ctx !! (i + 1)%nat); simpl in H; [| done].
        inversion H; subst; clear H. done.
    + destruct (i =? length ctx - 1)%nat; simpl in H.
      * inversion H; subst; clear H. done.
      * destruct (ctx !! (i + 1)%nat); simpl in H; [| done].
        inversion H; subst; clear H. done.
Qed.
End NERProps.

(** The word "the" with a word list that holds it: [isBasic] answers
    "True", the "en-wordlist" slot of the tuple is empty. *)
Lemma extract_wordlist_slot_unset_witness :
  isBasic ["the"] "the" = "True"
  ∧ featureOrder !! 1%nat = Some "en-wordlist"
  ∧ ["True"; ""; "None"; "None"; "DT"; "DT+None"; "the"; "None"; "None";
     "None"; "downcase"; "None+None"; "the"; "the"; "the+None"; "the"; "3"]
      !! 1%nat = Some ""
  ∧ length
      ["True"; ""; "None"; "None"; "DT"; "DT+None"; "the"; "None"; "None";
       "None"; "downcase"; "None+None"; "the"; "the"; "the+None"; "the"; "3"]
    = 17%nat.
Proof.
  split; [reflexivity |].
  apply (extract_wordlist_slot_unset (λ s, s) (λ s, s) (λ _, false) ["the"]
           0 [Token.mk "the" "DT" ""] []).
  reflexivity.
Defined.

(** ** Normalisation of label distributions *)



(** [addLogs] never returns -Inf. *)
Lemma addLogs_not_NegInf x y : addLogs x y ≠ NegInf.
Proof.
  destruct x as [| | | a], y as [| | | b];
    try (unfold addLogs; rewrite maxLogDiff_Num; simpl; done).
  rewrite addLogs_Num.
  destruct (Rltb a (b + logFloor)); [done |].
  destruct (Rltb b (a + logFloor)); done.
Qed.

Lemma fold_addLogs_not_NegInf (rest : list float64) (acc : float64) :
  acc ≠ NegInf → fold_left addLogs rest acc ≠ NegInf.
Proof.
  revert acc. induction rest as [| v rest IH]; intros acc Hacc; simpl; [done |].
  apply IH, addLogs_not_NegInf.
Qed.


Section Normalise.
Variable rangeOrder : list (string * probEnc) → list (string * probEnc).
Hypothesis rangeOrder_perm : ∀ l, rangeOrder l ≡ₚ l.



(** The guard of [newMappedProbDist]: when the sum it computes is -Inf,
    every label gets log2(1/n). *)
Lemma newMappedProbDist_guard (dict : gmap string probEnc) lbl pe :
  fle (sumLogs (map (λ kv, prob kv.2) (rangeDict rangeOrder dict))) NegInf = true →
  dict !! lbl = Some pe →
  mappedProbDist.dict (newMappedProbDist rangeOrder dict true) !! lbl
  = Some (mkProbEnc (Log2 (fdiv (Num 1) (of_int (Z.of_nat (size dict)))))
            (vec pe)).
Proof.
  intros Hsum Hl. unfold newMappedProbDist. rewrite Hsum. simpl.
  by rewrite lookup_fmap, Hl.
Qed.

(** With two labels or more the computed sum is never -Inf, so the
    uniform fallback is only ever taken for a single label. *)
Lemma sumLogs_NegInf_single (vs : list float64) :
  fle (sumLogs vs) NegInf = true → (length vs ≤ 1)%nat.
Proof.
  destruct vs as [| v0 [| v1 rest]]; simpl; [lia | lia |].
  intros H. exfalso.
  pose proof (fold_addLogs_not_NegInf rest _ (addLogs_not_NegInf v0 v1)) as Hne.
  destruct (fold_left addLogs rest (addLogs v0 v1)); done.
Qed.

End Normalise.


(** ** The vocabulary built by [encode] *)

Lemma Join3_byteJoin a b c : Join [a; b; c] "-" = byteJoin a b c "-".
Proof. reflexivity. Qed.

Lemma dense_empty : dense ∅.
Proof.
  split.
  - intros k v. by rewrite lookup_empty.
  - intros v. rewrite map_size_empty. lia.
Qed.

Lemma register_lookup M k k' :
  register M k !! k' =
    if decide (k = k') then Some (default (size M) (M !! k)) else M !! k'.
Proof.
  unfold register. destruct (M !! k) as [v |] eqn:Hk.
  - case_decide; [by subst |]. done.
  - rewrite lookup_insert. by case_decide.
Qed.

Lemma register_size M k :
  size (register M k)
  = match M !! k with Some _ => size M | None => S (size M) end.
Proof.
  unfold register. destruct (M !! k) eqn:Hk; [done |].
  by apply map_size_insert_None.
Qed.

Lemma register_dense M k : dense M → dense (register M k).
Proof.
  intros [Hlt Hsurj]. split.
  - intros k' v. rewrite register_lookup, register_size.
    case_decide as Hkk.
    + intros [= <-]. destruct (M !! k) as [v |] eqn:Hk; simpl; [eauto | lia].
    + intros Hv. apply Hlt in Hv. destruct (M !! k); lia.
  - intros v. rewrite register_size. intros Hv.
    destruct (M !! k) as [vk |] eqn:Hk.
    + destruct (Hsurj v Hv) as [k' Hk']. exists k'.
      rewrite register_lookup. case_decide; [| done].
      subst. rewrite Hk in *. done.
    + destruct (decide (v = size M)) as [-> | Hne].
      * exists k. rewrite register_lookup, Hk. by case_decide.
      * destruct (Hsurj v ltac:(lia)) as [k' Hk']. exists k'.
        rewrite register_lookup. case_decide; [congruence | done].
Qed.

Lemma register_dom M k : dom (register M k) = {[k]} ∪ dom M.
Proof.
  apply set_eq. intros k'. rewrite elem_of_union, elem_of_singleton.
  rewrite !elem_of_dom, register_lookup. case_decide.
  - subst. split; [auto | intros _; eauto].
  - split; [auto | intros [? | ?]; [congruence | done]].
Qed.

Lemma foldl_register_dense M ks : dense M → dense (foldl register M ks).
Proof.
  revert M. induction ks as [| k ks IH]; intros M HM; simpl; [done |].
  by apply IH, register_dense.
Qed.

Lemma foldl_register_dom M ks :
  dom (foldl register M ks) = list_to_set ks ∪ dom M.
Proof.
  revert M. induction ks as [| k ks IH]; intros M; simpl.
  - set_solver.
  - rewrite IH, register_dom. set_solver.
Qed.

Lemma encode_mapping corpus : mapping (encode corpus) = vocabulary corpus.
Proof.
  unfold encode, vocabulary. by destruct (foldl encode_entry (∅, []) corpus).
Qed.

Lemma encode_entry_fst st e :
  (encode_entry st e).1 = foldl register st.1 (entryKeys e).
Proof. by destruct st. Qed.

Lemma encode_loop_spec corpus st :
  dense st.1 →
  dense (foldl encode_entry st corpus).1
  ∧ dom (foldl encode_entry st corpus).1
    = list_to_set (corpus ≫= entryKeys) ∪ dom st.1.
Proof.
  revert st. induction corpus as [| e corpus IH]; intros st HM.
  - split; [done |].
    change (dom st.1 = list_to_set (C := gset string) [] ∪ dom st.1).
    rewrite list_to_set_nil. by rewrite (left_id_L ∅ (∪)).
  - change (foldl encode_entry st (e :: corpus))
      with (foldl encode_entry (encode_entry st e) corpus).
    destruct (IH (encode_entry st e)) as [Hd Hdom].
    { rewrite encode_entry_fst. by apply foldl_register_dense. }
    split; [exact Hd |]. rewrite Hdom, encode_entry_fst.
    rewrite foldl_register_dom, bind_cons, list_to_set_app_L.
    generalize (list_to_set (C := gset string) (entryKeys e)).
    generalize (list_to_set (C := gset string) (corpus ≫= entryKeys)).
    generalize (dom st.1).
    intros D X Y. clear. set_solver.
Qed.

Lemma vocabulary_dense corpus : dense (vocabulary corpus).
Proof. apply (encode_loop_spec corpus (∅, [])), dense_empty. Qed.

Lemma vocabulary_dom corpus :
  dom (vocabulary corpus) = list_to_set (corpus ≫= entryKeys).
Proof.
  unfold vocabulary.
  rewrite (proj2 (encode_loop_spec corpus (∅, []) dense_empty)).
  simpl. set_solver.
Qed.

Lemma vocabulary_key corpus e k :
  e ∈ corpus → k ∈ entryKeys e → is_Some (vocabulary corpus !! k).
Proof.
  intros He Hk. apply elem_of_dom. rewrite vocabulary_dom.
  apply elem_of_list_to_set, list_elem_of_bind. eauto.
Qed.

Lemma Split_nonempty s sep : Split s sep ≠ [].
Proof.
  destruct s as [| c s]; simpl; [done |].
  destruct (Ascii.eqb c sep); [done |]. by destruct (Split s sep).
Qed.

Lemma keyPrefix_cons c s :
  keyPrefix (String c s)
  = if Ascii.eqb c "-" then "" else String c (keyPrefix s).
Proof.
  unfold keyPrefix. simpl. destruct (Ascii.eqb c "-"); [done |].
  pose proof (Split_nonempty s "-"). by destruct (Split s "-").
Qed.

(** The first dash-separated field of [a-rest] is that of [a]. *)
Lemma keyPrefix_app a rest :
  keyPrefix (a +:+ String "-" rest) = keyPrefix a.
Proof.
  induction a as [| c a IH].
  - change ("" +:+ String "-" rest) with (String "-" rest).
    by rewrite keyPrefix_cons.
  - change (String c a +:+ String "-" rest)
      with (String c (a +:+ String "-" rest)).
    rewrite !keyPrefix_cons, IH. done.
Qed.

Lemma elem_of_entryKeys e k :
  k ∈ entryKeys e ↔
  ∃ i fname, featureOrder !! i = Some fname
             ∧ k = byteJoin fname (features e !!! i) (label e) "-".
Proof.
  unfold entryKeys. rewrite elem_of_lookup_imap. split.
  - intros (i & fname & -> & Hi). by exists i, fname.
  - intros (i & fname & Hi & ->). by exists i, fname.
Qed.

Lemma keyPrefix_fnames_NoDup : NoDup (keyPrefix <$> featureOrder).
Proof. apply (bool_decide_unpack _). by vm_compute. Qed.

(** A non-empty corpus registers keys of all 17 feature names, whose
    first fields are distinct: the cardinality is 18. *)
Lemma encode_cardinality corpus :
  corpus ≠ [] → cardinality (encode corpus) = 18%Z.
Proof.
  intros Hne.
  assert (Hset : set_map (D := gset string) keyPrefix (dom (vocabulary corpus))
                 = list_to_set (keyPrefix <$> featureOrder)).
  { apply set_eq. intros x.
    rewrite elem_of_map, elem_of_list_to_set, list_elem_of_fmap.
    setoid_rewrite vocabulary_dom. setoid_rewrite elem_of_list_to_set.
    setoid_rewrite list_elem_of_bind. split.
    - intros (k & -> & e & Hk & He).
      apply elem_of_entryKeys in Hk as (i & fname & Hi & ->).
      exists fname. split; [apply keyPrefix_app |].
      by eapply list_elem_of_lookup_2.
    - intros (fname & -> & Hin).
      apply list_elem_of_lookup in Hin as [i Hi].
      destruct corpus as [| e0 corpus]; [done |].
      exists (byteJoin fname (features e0 !!! i) (label e0) "-").
      split; [symmetry; apply keyPrefix_app |].
      exists e0. split; [| left].
      apply elem_of_entryKeys. eauto. }
  unfold encode.
  destruct (foldl encode_entry (∅, []) corpus) as [M ls] eqn:HM.
  unfold newMaxentClassifier. cbn [cardinality].
  replace M with (vocabulary corpus) by (unfold vocabulary; by rewrite HM).
  rewrite Hset, size_list_to_set by apply keyPrefix_fnames_NoDup.
  by rewrite length_fmap.
Qed.

(** ** Encoding a training example *)

Lemma elem_of_m_encode m feats lbl x :
  x ∈ m_encode m feats lbl ↔
  ∃ i fname v, featureOrder !! i = Some fname
               ∧ mapping m !! byteJoin fname (feats !!! i) lbl "-" = Some v
               ∧ x = mkEnc v 1.
Proof.
  unfold m_encode. rewrite list_elem_of_join.
  setoid_rewrite elem_of_lookup_imap. split.
  - intros (l & Hx & i & fname & -> & Hi).
    destruct (mapping m !! _) as [v |] eqn:Hv.
    + apply list_elem_of_singleton in Hx. by exists i, fname, v.
    + by apply not_elem_of_nil in Hx.
  - intros (i & fname & v & Hi & Hv & ->).
    exists [mkEnc v 1]. split; [by left |].
    exists i, fname. by rewrite Hv.
Qed.

Lemma indicators_length (g : nat → string → option nat) (names : list string) :
  (∀ i x, names !! i = Some x → is_Some (g i x)) →
  length (mjoin (imap (λ i x, match g i x with
                              | Some ret => [mkEnc ret 1]
                              | None => []
                              end) names)) = length names.
Proof.
  revert g. induction names as [| x names IH]; intros g Hg; [done |].
  simpl. rewrite length_app.
  specialize (IH (g ∘ S) (λ i y Hi, Hg (S i) y Hi)).
  destruct (Hg 0%nat x eq_refl) as [v ->]. simpl. by f_equal.
Qed.

Section Trained.
Variable corpus : featureSet.
Variable m : binaryMaxentClassifier.
Hypothesis m_mapping : mapping m = vocabulary corpus.
Hypothesis m_cardinality : cardinality m = 18%Z.

Lemma m_encode_example_length e :
  e ∈ corpus → length (m_encode m (features e) (label e)) = 17%nat.
Proof.
  intros He. unfold m_encode.
  rewrite (indicators_length
             (λ i fname, mapping m !! byteJoin fname (features e !!! i) (label e) "-")).
  - done.
  - intros i fname Hi. rewrite m_mapping.
    apply (vocabulary_key corpus e); [done |].
    apply elem_of_entryKeys. eauto.
Qed.

(** For a training example every entry of [encodeGIS] has value 1 and a
    key within the vector. *)
Lemma encodeGIS_example e :
  e ∈ corpus →
  Forall (λ x, value x = 1%Z ∧ (key x < size (mapping m) + 1)%nat)
    (encodeGIS m (features e) (label e)).
Proof.
  intros He. rewrite encodeGIS_eq, m_encode_example_length by done.
  apply Forall_app. split.
  - apply Forall_forall. intros x Hx.
    apply elem_of_m_encode in Hx as (i & fname & v & Hi & Hv & ->).
    split; [done |]. simpl.
    rewrite m_mapping in *. apply vocabulary_dense in Hv. lia.
  - constructor; [| constructor]. simpl. rewrite m_cardinality. lia.
Qed.

(** Every index of the vector is the key of an entry of some training
    example, once the corpus is not empty. *)
Lemma index_attested idx :
  corpus ≠ [] → (idx < size (mapping m) + 1)%nat →
  ∃ e, e ∈ corpus
       ∧ mkEnc idx 1 ∈ encodeGIS m (features e) (label e).
Proof.
  intros Hne Hidx.
  destruct (decide (idx = size (mapping m))) as [-> | Hlt].
  - assert (He0 : ∃ e0, e0 ∈ corpus).
    { clear -Hne. destruct corpus as [| e0 rest]; [done |]. exists e0. left. }
    destruct He0 as [e0 He0]. exists e0. split; [done |].
    rewrite encodeGIS_eq, m_encode_example_length by done.
    apply elem_of_app. right. rewrite m_cardinality.
    by apply list_elem_of_singleton.
  - assert (Hlt' : (idx < size (vocabulary corpus))%nat)
      by (rewrite <- m_mapping; lia).
    apply vocabulary_dense in Hlt' as [k Hk].
    assert (Hdom : k ∈ dom (vocabulary corpus)) by (apply elem_of_dom; eauto).
    rewrite vocabulary_dom in Hdom.
    apply elem_of_list_to_set, list_elem_of_bind in Hdom as (e & Hke & He).
    apply elem_of_entryKeys in Hke as (i & fname & Hi & ->).
    exists e. split; [done |]. rewrite encodeGIS_eq.
    apply elem_of_app. left. apply elem_of_m_encode.
    exists i, fname, idx. by rewrite m_mapping.
Qed.
End Trained.

(** ** Empirical counts *)

Lemma foldM_bind {A B S : Type} (f : S → B → option S) (g : A → list B) s l :
  foldM (λ s a, foldM f s (g a)) s l = foldM f s (l ≫= g).
Proof.
  revert s. induction l as [| a l IH]; intros s; [done |].
  rewrite bind_cons, foldM_app. cbn [foldM].
  destruct (foldM f s (g a)) as [s1 |]; [apply IH | done].
Qed.

Lemma hits_cons idx x encs :
  hits idx (x :: encs)
  = if decide (key x = idx) then S (hits idx encs) else hits idx encs.
Proof. unfold hits. rewrite filter_cons. by case_decide. Qed.

Lemma hits_pos idx v encs : mkEnc idx v ∈ encs → (1 ≤ hits idx encs)%nat.
Proof.
  intros Hin. unfold hits.
  assert (Hf : mkEnc idx v ∈ filter (λ x, key x = idx) encs)
    by (by apply list_elem_of_filter).
  destruct (filter _ encs); [by apply not_elem_of_nil in Hf | simpl; lia].
Qed.

Lemma addAt_Num (rs : list R) (k : nat) (r : R) :
  rs !! k = Some r →
  addAt (Num <$> rs) k (of_int 1) = Some (Num <$> <[k := (r + 1)%R]> rs).
Proof.
  intros Hk. unfold addAt, AtVec, SetVec.
  rewrite list_lookup_fmap, Hk. cbn [fmap option_fmap option_map mbind option_bind].
  rewrite length_fmap. apply lookup_lt_Some in Hk as Hlt.
  rewrite decide_True by done. by rewrite list_fmap_insert.
Qed.

Lemma count_fold (encs : list encodedValue) (rs : list R) :
  Forall (λ x, value x = 1%Z ∧ (key x < length rs)%nat) encs →
  ∃ rs', foldM (λ count encoded,
                  addAt count (key encoded) (of_int (value encoded)))
           (Num <$> rs) encs = Some (Num <$> rs')
         ∧ length rs' = length rs
         ∧ ∀ i r, rs !! i = Some r →
                  rs' !! i = Some (r + INR (hits i encs))%R.
Proof.
  revert rs. induction encs as [| x encs IH]; intros rs Hall.
  - exists rs. split; [done |]. split; [done |].
    intros i r Hi. rewrite Hi. f_equal. unfold hits. simpl. lra.
  - inversion Hall as [| ? ? [Hv Hk] Hrest]; subst.
    destruct (lookup_lt_is_Some_2 rs (key x) Hk) as [rk Hrk].
    destruct (IH (<[key x := (rk + 1)%R]> rs)) as (rs' & Hrun & Hlen & Hget).
    { eapply Forall_impl; [exact Hrest |].
      intros y [? ?]. by rewrite length_insert. }
    exists rs'. split; [| split].
    + cbn [foldM]. rewrite Hv, (addAt_Num rs (key x) rk Hrk). exact Hrun.
    + by rewrite Hlen, length_insert.
    + intros i r Hi. rewrite hits_cons. case_decide as Hki.
      * subst i. rewrite Hi in Hrk. injection Hrk as <-.
        rewrite (Hget (key x) (r + 1)%R).
        -- f_equal. rewrite S_INR. lra.
        -- apply list_lookup_insert_eq. by eapply lookup_lt_Some.
      * apply Hget. by rewrite list_lookup_insert_ne.
Qed.

Lemma empiricalCount_counts (m : binaryMaxentClassifier) (corpus : featureSet) :
  Forall (λ x, value x = 1%Z ∧ (key x < size (mapping m) + 1)%nat)
    (examples m corpus) →
  ∃ rs, empiricalCount corpus m = Some (Num <$> rs)
        ∧ length rs = (size (mapping m) + 1)%nat
        ∧ ∀ i, (i < size (mapping m) + 1)%nat →
               rs !! i = Some (INR (hits i (examples m corpus))).
Proof.
  intros Hall. unfold empiricalCount.
  rewrite (foldM_bind
             (λ count encoded,
                addAt count (key encoded) (of_int (value encoded)))
             (λ e, encodeGIS m (features e) (label e))).
  fold (examples m corpus).
  replace (replicate (size (mapping m) + 1) (Num 0))
    with (Num <$> replicate (size (mapping m) + 1) 0%R)
    by apply fmap_replicate.
  destruct (count_fold (examples m corpus)
              (replicate (size (mapping m) + 1) 0%R))
    as (rs & Hrun & Hlen & Hget).
  { by rewrite length_replicate. }
  rewrite length_replicate in Hlen.
  exists rs. split; [done |]. split; [done |].
  intros i Hi. rewrite (Hget i 0%R) by (by apply lookup_replicate_2).
  f_equal. lra.
Qed.

Lemma examples_ok (corpus : featureSet) :
  Forall (λ x, value x = 1%Z
               ∧ (key x < size (mapping (encode corpus)) + 1)%nat)
    (examples (encode corpus) corpus).
Proof.
  destruct (decide (corpus = [])) as [-> | Hne]; [constructor |].
  apply Forall_forall. intros x Hx.
  apply list_elem_of_bind in Hx as (e & Hx & He).
  pose proof (encodeGIS_example corpus (encode corpus)
                (encode_mapping corpus) (encode_cardinality corpus Hne) e He)
    as Hall.
  rewrite Forall_forall in Hall. by apply Hall.
Qed.

(** Every index of a non-empty corpus is attested: its count is at
    least 1. *)
Lemma empirical_attested (corpus : featureSet) counts idx c :
  corpus ≠ [] →
  empiricalCount corpus (encode corpus) = Some counts →
  counts !! idx = Some c →
  feq c (Num 0) = false.
Proof.
  intros Hne Hcounts Hidx.
  destruct (empiricalCount_counts _ _ (examples_ok corpus))
    as (rs & Hrun & Hlen & Hget).
  rewrite Hrun in Hcounts. injection Hcounts as <-.
  rewrite list_lookup_fmap in Hidx.
  destruct (rs !! idx) as [r |] eqn:Hr; [| done].
  injection Hidx as <-.
  assert (Hlt : (idx < size (mapping (encode corpus)) + 1)%nat).
  { rewrite <- Hlen. by eapply lookup_lt_Some. }
  rewrite (Hget idx Hlt) in Hr. injection Hr as <-.
  destruct (index_attested corpus (encode corpus) (encode_mapping corpus)
              (encode_cardinality corpus Hne) idx Hne Hlt) as (e & He & Hin).
  assert (Hhit : (1 ≤ hits idx (examples (encode corpus) corpus))%nat).
  { apply (hits_pos idx 1). apply list_elem_of_bind. eauto. }
  simpl. apply Reqb_false.
  apply le_INR in Hhit. simpl in Hhit. lra.
Qed.

(** ** The initial weights *)

Lemma gisInit_eq corpus counts :
  empiricalCount corpus (encode corpus) = Some counts →
  gisInit corpus =
    Some (mkSetup
            (newTrainedEntityExtracter
               (setWeights (encode corpus) (initialWeights counts)))
            (map Log2 counts)
            (filter (λ index, isZeroAt counts index) (seq 0 (length counts)))
            (fdiv (Num 1) (of_int (cardinality (encode corpus))))).
Proof. intros H. unfold gisInit. by rewrite H. Qed.

Lemma pin_lookup (l : list nat) (w : list float64) (i : nat) :
  foldl (λ w idx, <[idx := NegInf]> w) w l !! i
  = if decide (i ∈ l) then (λ _, NegInf) <$> w !! i else w !! i.
Proof.
  revert w. induction l as [| x l IH]; intros w.
  - cbn [foldl]. by rewrite decide_False by apply not_elem_of_nil.
  - cbn [foldl]. rewrite IH.
    assert (Hx : <[x := NegInf]> w !! i
                 = if decide (i = x) then (λ _, NegInf) <$> w !! i else w !! i).
    { rewrite list_lookup_insert.
      destruct (decide (x = i ∧ (x < length w)%nat)) as [[-> Hlt] | Hn].
      - rewrite decide_True by done.
        by destruct (lookup_lt_is_Some_2 w i Hlt) as [? ->].
      - destruct (decide (i = x)) as [-> | Hne]; [| done].
        rewrite lookup_ge_None_2; [done |]. lia. }
    rewrite Hx.
    destruct (decide (i = x)) as [-> | Hne].
    + rewrite (decide_True (P := x ∈ x :: l)) by left.
      case_decide; by destruct (w !! x).
    + destruct (decide (i ∈ l)) as [Hin | Hnin].
      * by rewrite (decide_True (P := i ∈ x :: l)) by (by right).
      * rewrite (decide_False (P := i ∈ x :: l)); [done |].
        intros [? | ?]%elem_of_cons; done.
Qed.

Lemma initialWeights_length counts :
  length (initialWeights counts) = length counts.
Proof.
  unfold initialWeights.
  generalize (filter (λ index, isZeroAt counts index) (seq 0 (length counts))).
  intros l. rewrite <- (length_replicate (length counts) (Num 0)) at 2.
  generalize (replicate (length counts) (Num 0)).
  induction l as [| x l IH]; intros w; cbn [foldl]; [done |].
  by rewrite IH, length_insert.
Qed.

Lemma initialWeights_lookup counts idx c :
  counts !! idx = Some c →
  initialWeights counts !! idx
  = Some (if feq c (Num 0) then NegInf else Num 0).
Proof.
  intros Hc. unfold initialWeights. rewrite pin_lookup.
  apply lookup_lt_Some in Hc as Hlt.
  rewrite lookup_replicate_2 by done.
  assert (Hz : isZeroAt counts idx = feq c (Num 0)).
  { unfold isZeroAt, AtVec. by rewrite Hc. }
  case_decide as Hin.
  - apply list_elem_of_filter in Hin as [Hin _].
    apply Is_true_true in Hin. by rewrite <- Hz, Hin.
  - destruct (feq c (Num 0)) eqn:Hf; [| done].
    exfalso. apply Hin. apply list_elem_of_filter. split.
    + rewrite Hz. done.
    + apply elem_of_seq. lia.
Qed.

(** C2 (as amended). [extracterFromData] always reaches the loop of
    rounds, and the weights it holds there are 0 at every attested index
    and -Inf at every unattested one; it is the empirical count vector,
    not the weights, that is replaced by its log2. *)
Theorem initial_weights (corpus : featureSet) :
  ∃ s counts,
    gisInit corpus = Some s
    ∧ empiricalCount corpus (encode corpus) = Some counts
    ∧ empfreq s = map Log2 counts
    ∧ length (weights (model (classifier0 s))) = length counts
    ∧ ∀ idx c, counts !! idx = Some c →
        weights (model (classifier0 s)) !! idx
        = Some (if feq c (Num 0) then NegInf else Num 0).
Proof.
  destruct (empiricalCount_counts _ _ (examples_ok corpus))
    as (rs & Hrun & _).
  eexists _, (Num <$> rs). split; [by apply gisInit_eq |].
  split; [done |]. split; [done |]. split.
  - apply initialWeights_length.
  - intros idx c Hc. by apply initialWeights_lookup.
Qed.

(** C2 (as stated) fails: in the corpus of two equal examples index 0
    has empirical count 2, so log2 of it is 1, but its initial weight
    is 0. *)
Lemma initial_weight_not_log2_count :
  ∃ s counts,
    gisInit c2_corpus = Some s
    ∧ empiricalCount c2_corpus (encode c2_corpus) = Some counts
    ∧ counts !! 0%nat = Some (Num 2)
    ∧ Log2 (Num 2) = Num 1
    ∧ weights (model (classifier0 s)) !! 0%nat = Some (Num 0).
Proof.
  destruct (empiricalCount_counts _ _ (examples_ok c2_corpus))
    as (rs & Hrun & _ & Hget).
  eexists _, (Num <$> rs). split; [by apply gisInit_eq |]. split; [done |].
  assert (H0 : (Num <$> rs) !! 0%nat = Some (Num 2)).
  { rewrite list_lookup_fmap, (Hget 0%nat).
    - replace (hits 0 (examples (encode c2_corpus) c2_corpus)) with 2%nat
        by (by vm_compute).
      simpl. do 2 f_equal; lra.
    - replace (size (mapping (encode c2_corpus))) with 17%nat
        by (by vm_compute).
      lia. }
  split; [done |]. split.
  - rewrite Log2_pos by lra. f_equal. pose proof ln2_pos. by field; lra.
  - transitivity (Some (if feq (Num 2) (Num 0) then NegInf else Num 0));
      [by apply initialWeights_lookup |].
    simpl. by rewrite Reqb_false by lra.
Qed.

(** ** The unattested indices through the rounds *)

Lemma encode_nil : encode [] = mkClassifier 1 [] ∅ [].
Proof. by vm_compute. Qed.

Lemma gisInit_nil :
  gisInit [] =
    Some (mkSetup (mkExtracter (mkClassifier 1 [] ∅ [NegInf]))
            [NegInf] [0%nat] (Num (1 / 1))).
Proof.
  rewrite (gisInit_eq [] [Num 0]) by (by rewrite encode_nil).
  rewrite encode_nil.
  assert (Hz : isZeroAt [Num 0] 0 = true).
  { unfold isZeroAt. simpl. by apply Reqb_true. }
  assert (Hu : filter (λ index, isZeroAt [Num 0] index) (seq 0 1) = [0%nat]).
  { cbn [length seq]. rewrite filter_cons, decide_True; [done |].
    by apply Is_true_true. }
  unfold initialWeights. cbn [length] in *. rewrite Hu.
  cbn [map foldl replicate cardinality]. unfold of_int, setWeights.
  cbn [cardinality labels mapping]. f_equal. f_equal.
  - simpl. rewrite Rltb_false by lra. by rewrite Reqb_true.
  - simpl. by rewrite Reqb_false by lra.
Qed.

Section EmptyCorpus.
Variable rangeOrder : list (string * probEnc) → list (string * probEnc).

(** On the empty corpus a round leaves the classifier as it is. *)
Lemma gisRound_nil :
  gisRound rangeOrder []
    (mkSetup (mkExtracter (mkClassifier 1 [] ∅ [NegInf]))
       [NegInf] [0%nat] (Num (1 / 1)))
    (mkExtracter (mkClassifier 1 [] ∅ [NegInf]))
  = Some (mkExtracter (mkClassifier 1 [] ∅ [NegInf])).
Proof.
  unfold gisRound, estCount. cbn [foldM model mapping].
  rewrite map_size_empty.
  cbn [replicate Nat.add mbind option_bind unattested foldM AtVec].
  unfold AtVec, SetVec. simpl.
  rewrite Rltb_false by lra. rewrite Reqb_false by lra.
  unfold SubVec. simpl. unfold inf_times.
  rewrite Reqb_false by lra. rewrite Rltb_true by lra. simpl.
  reflexivity.
Qed.

Lemma gisLoop_nil rounds :
  gisLoop rangeOrder rounds []
    (mkSetup (mkExtracter (mkClassifier 1 [] ∅ [NegInf]))
       [NegInf] [0%nat] (Num (1 / 1)))
    (mkExtracter (mkClassifier 1 [] ∅ [NegInf]))
  = Some (mkExtracter (mkClassifier 1 [] ∅ [NegInf])).
Proof.
  induction rounds as [| n IH]; [done |].
  cbn [gisLoop]. rewrite gisRound_nil. exact IH.
Qed.

Lemma trainRounds_nil rounds :
  trainRounds rangeOrder rounds []
  = Some (mkExtracter (mkClassifier 1 [] ∅ [NegInf])).
Proof.
  unfold trainRounds. rewrite gisInit_nil.
  cbn [mbind option_bind classifier0]. apply gisLoop_nil.
Qed.

(** C1. After any number of rounds, and so after each of the 100 rounds
    of [extracterFromData], every index whose empirical count is zero
    has weight -Inf. *)
Theorem unattested_weights_stay_NegInf (corpus : featureSet) (rounds : nat)
    (e : entityExtracter) (counts : list float64) (idx : nat) (c : float64) :
  trainRounds rangeOrder rounds corpus = Some e →
  empiricalCount corpus (encode corpus) = Some counts →
  counts !! idx = Some c →
  feq c (Num 0) = true →
  weights (model e) !! idx = Some NegInf.
Proof.
  intros Hrun Hcounts Hidx Hzero.
  destruct (decide (corpus = [])) as [-> | Hne].
  - rewrite trainRounds_nil in Hrun. injection Hrun as <-.
    rewrite encode_nil in Hcounts. injection Hcounts as <-.
    destruct idx as [| idx]; [done |]. done.
  - by rewrite (empirical_attested corpus counts idx c Hne Hcounts Hidx)
      in Hzero.
Qed.
End EmptyCorpus.

(** The empty corpus: its single index, the correction feature, has
    empirical count 0 and keeps weight -Inf through the 100 rounds. *)
Lemma unattested_weights_stay_NegInf_witness :
  extracterFromData (λ l, l) []
  = Some (mkExtracter (mkClassifier 1 [] ∅ [NegInf]))
  ∧ empiricalCount [] (encode []) = Some [Num 0]
  ∧ feq (Num 0) (Num 0) = true
  ∧ weights (model (mkExtracter (mkClassifier 1 [] ∅ [NegInf]))) !! 0%nat
    = Some NegInf.
Proof.
  assert (Hrun : extracterFromData (λ l, l) []
                 = Some (mkExtracter (mkClassifier 1 [] ∅ [NegInf])))
    by apply trainRounds_nil.
  assert (Hcounts : empiricalCount [] (encode []) = Some [Num 0])
    by (by rewrite encode_nil).
  assert (Hzero : feq (Num 0) (Num 0) = true) by (simpl; by apply Reqb_true).
  split; [exact Hrun |]. split; [exact Hcounts |]. split; [exact Hzero |].
  exact (unattested_weights_stay_NegInf (λ l, l) [] 100 _ [Num 0] 0 (Num 0)
           Hrun Hcounts eq_refl Hzero).
Defined.

(** ** The averaged perceptron tagger *)















Section TagProps.
Variable ToLower : string → string.

End TagProps.



(** ** Further properties of the log-space arithmetic *)

(** The sum of two or more log-values is never -Inf, whatever the values
    (NaN and the infinities included): the uniform fallback of
    [newMappedProbDist] can only be reached with at most one label. *)
Theorem sumLogs_several_not_NegInf (v0 v1 : float64) (rest : list float64) :
  sumLogs (v0 :: v1 :: rest) ≠ NegInf
  ∧ fle (sumLogs (v0 :: v1 :: rest)) NegInf = false.
Proof.
  assert (H : sumLogs (v0 :: v1 :: rest) ≠ NegInf).
  { cbn [sumLogs fold_left].
    apply fold_addLogs_not_NegInf, addLogs_not_NegInf. }
  split; [exact H |]. by destruct (sumLogs (v0 :: v1 :: rest)).
Qed.

Lemma Rpower2_mono a b : (a <= b)%R → (Rpower 2 a <= Rpower 2 b)%R.
Proof. intros H. apply Rle_Rpower; lra. Qed.

Lemma log2_Rpower2 a : (ln (Rpower 2 a) / ln 2 = a)%R.
Proof. unfold Rpower. rewrite ln_exp. pose proof ln2_pos. by field; lra. Qed.

Lemma log2_mono a b : (0 < a)%R → (a <= b)%R → (ln a / ln 2 <= ln b / ln 2)%R.
Proof.
  intros Ha Hab. pose proof ln2_pos.
  apply Rmult_le_compat_r; [left; by apply Rinv_0_lt_compat |].
  destruct Hab as [Hlt | ->]; [left; by apply ln_increasing | lra].
Qed.

Lemma addLogs_Num_bounds (x y : R) :
  ∃ z, addLogs (Num x) (Num y) = Num z
       ∧ (Rmax x y <= z <= Rmax x y + 1)%R.
Proof.
  pose proof logFloor_neg as Hneg. rewrite addLogs_Num.
  destruct (Rlt_dec x (y + logFloor)) as [H1 | H1].
  { rewrite (Rltb_true _ _ H1). exists y. split; [done |].
    rewrite Rmax_right by lra. lra. }
  rewrite (Rltb_false _ _ H1).
  destruct (Rlt_dec y (x + logFloor)) as [H2 | H2].
  { rewrite (Rltb_true _ _ H2). exists x. split; [done |].
    rewrite Rmax_left by lra. lra. }
  rewrite (Rltb_false _ _ H2). eexists. split; [done |].
  pose proof (Rpower2_pos x) as Hx. pose proof (Rpower2_pos y) as Hy.
  set (mx := Rmax x y).
  assert (Hxm : (Rpower 2 x <= Rpower 2 mx)%R)
    by (apply Rpower2_mono, Rmax_l).
  assert (Hym : (Rpower 2 y <= Rpower 2 mx)%R)
    by (apply Rpower2_mono, Rmax_r).
  assert (Hm : (Rpower 2 mx <= Rpower 2 x + Rpower 2 y)%R).
  { subst mx. unfold Rmax. destruct (Rle_dec x y); lra. }
  split.
  - rewrite <- (log2_Rpower2 mx) at 1.
    apply log2_mono; [apply Rpower2_pos | done].
  - rewrite <- (log2_Rpower2 (mx + 1)).
    apply log2_mono; [lra |].
    rewrite Rpower_plus, Rpower_1 by lra. lra.
Qed.

(** [addLogs] of two finite values is finite, at least the larger of the
    two and at most one more than it (in exact arithmetic). *)
Theorem addLogs_bounds (x y : R) :
  ∃ z, addLogs (Num x) (Num y) = Num z
       ∧ (Rmax x y <= z <= Rmax x y + 1)%R.
Proof. apply addLogs_Num_bounds. Qed.


Section NormaliseFinite.
Variable rangeOrder : list (string * probEnc) → list (string * probEnc).
Hypothesis rangeOrder_perm : ∀ l, rangeOrder l ≡ₚ l.

End NormaliseFinite.


(** ** Further properties of the vocabulary *)

Lemma register_inj M k :
  dense M →
  (∀ k1 k2 v, M !! k1 = Some v → M !! k2 = Some v → k1 = k2) →
  ∀ k1 k2 v, register M k !! k1 = Some v → register M k !! k2 = Some v →
             k1 = k2.
Proof.
  intros [Hlt _] Hinj k1 k2 v. rewrite !register_lookup.
  destruct (M !! k) as [vk |] eqn:Hk; cbn [default].
  - repeat case_decide; subst; intros H1 H2; try done.
    + injection H1 as <-. by eapply Hinj.
    + injection H2 as <-. by eapply Hinj.
    + by eapply Hinj.
  - repeat case_decide; subst; intros H1 H2; try done.
    + injection H1 as <-. apply Hlt in H2. lia.
    + injection H2 as <-. apply Hlt in H1. lia.
    + by eapply Hinj.
Qed.

Lemma register_mono M k k' v :
  M !! k' = Some v → register M k !! k' = Some v.
Proof.
  intros Hk'. rewrite register_lookup. case_decide; [| done].
  subst. by rewrite Hk'.
Qed.

Lemma foldl_register_inj M ks :
  dense M →
  (∀ k1 k2 v, M !! k1 = Some v → M !! k2 = Some v → k1 = k2) →
  ∀ k1 k2 v, foldl register M ks !! k1 = Some v →
             foldl register M ks !! k2 = Some v → k1 = k2.
Proof.
  revert M. induction ks as [| k ks IH]; intros M Hd Hinj; [done |].
  cbn [foldl]. apply IH; [by apply register_dense | by apply register_inj].
Qed.

Lemma foldl_register_mono M ks k' v :
  M !! k' = Some v → foldl register M ks !! k' = Some v.
Proof.
  revert M. induction ks as [| k ks IH]; intros M Hk'; [done |].
  cbn [foldl]. by apply IH, register_mono.
Qed.

Lemma encode_loop_inj corpus st :
  dense st.1 →
  (∀ k1 k2 v, st.1 !! k1 = Some v → st.1 !! k2 = Some v → k1 = k2) →
  ∀ k1 k2 v, (foldl encode_entry st corpus).1 !! k1 = Some v →
             (foldl encode_entry st corpus).1 !! k2 = Some v → k1 = k2.
Proof.
  revert st. induction corpus as [| e corpus IH]; intros st Hd Hinj; [done |].
  change (foldl encode_entry st (e :: corpus))
    with (foldl encode_entry (encode_entry st e) corpus).
  apply IH; rewrite encode_entry_fst.
  - by apply foldl_register_dense.
  - by apply foldl_register_inj.
Qed.

Lemma encode_loop_mono corpus st k v :
  st.1 !! k = Some v → (foldl encode_entry st corpus).1 !! k = Some v.
Proof.
  revert st. induction corpus as [| e corpus IH]; intros st Hk; [done |].
  change (foldl encode_entry st (e :: corpus))
    with (foldl encode_entry (encode_entry st e) corpus).
  apply IH. rewrite encode_entry_fst. by apply foldl_register_mono.
Qed.

(** [encode] numbers the joint keys densely and without repetition:
    every index is below [len(mapping)], every number below
    [len(mapping)] is the index of a key, and distinct keys have
    distinct indices. *)
Theorem encode_indices_bijective (corpus : featureSet) :
  let M := mapping (encode corpus) in
  (∀ k v, M !! k = Some v → (v < size M)%nat)
  ∧ (∀ v, (v < size M)%nat → ∃ k, M !! k = Some v)
  ∧ (∀ k1 k2 v, M !! k1 = Some v → M !! k2 = Some v → k1 = k2).
Proof.
  cbn zeta. rewrite encode_mapping.
  destruct (vocabulary_dense corpus) as [Hlt Hsurj].
  split; [exact Hlt |]. split; [exact Hsurj |].
  apply (encode_loop_inj corpus (∅, [])); [apply dense_empty |].
  intros k1 k2 v. cbn [fst]. by rewrite lookup_empty.
Qed.

(** The keys of the mapping are exactly the joint keys
    name-value-label of the slots of the training examples. *)
Theorem encode_keys (corpus : featureSet) (k : string) :
  is_Some (mapping (encode corpus) !! k) ↔
  ∃ e i fname, e ∈ corpus ∧ featureOrder !! i = Some fname
               ∧ k = byteJoin fname (features e !!! i) (label e) "-".
Proof.
  rewrite encode_mapping, <- elem_of_dom, vocabulary_dom.
  rewrite elem_of_list_to_set, list_elem_of_bind. split.
  - intros (e & Hk & He). apply elem_of_entryKeys in Hk as (i & fname & Hi & ->).
    by exists e, i, fname.
  - intros (e & i & fname & He & Hi & ->). exists e. split; [| done].
    apply elem_of_entryKeys. eauto.
Qed.

(** Indices are assigned in first-seen order: adding examples at the end
    of the corpus leaves the index of every key already seen as it is. *)
Theorem encode_indices_stable (corpus more : featureSet) (k : string) (v : nat) :
  mapping (encode corpus) !! k = Some v →
  mapping (encode (corpus ++ more)) !! k = Some v.
Proof.
  rewrite !encode_mapping. unfold vocabulary. rewrite foldl_app.
  apply encode_loop_mono.
Qed.

Lemma encode_indices_stable_witness :
  mapping (encode (c2_corpus ++ [mkFeature "B-ORG" (replicate 17 "x")]))
    !! "bias--O" = Some 0%nat.
Proof.
  apply (encode_indices_stable c2_corpus [mkFeature "B-ORG" (replicate 17 "x")]
           "bias--O" 0).
  by vm_compute.
Defined.

(** The cardinality of the classifier built by [encode] is 1 for the
    empty corpus and 18 for every other corpus. *)
Theorem encode_cardinality_value (corpus : featureSet) :
  cardinality (encode corpus) = match corpus with [] => 1%Z | _ => 18%Z end.
Proof.
  destruct corpus as [| e corpus]; [by rewrite encode_nil |].
  by apply encode_cardinality.
Qed.

Lemma encode_entry_snd st e :
  (encode_entry st e).2
  = if stringInSlice (label e) st.2 then st.2 else st.2 ++ [label e].
Proof. by destruct st. Qed.

Lemma encode_labels_loop corpus st :
  NoDup st.2 →
  NoDup (foldl encode_entry st corpus).2
  ∧ ∀ l, l ∈ (foldl encode_entry st corpus).2
         ↔ l ∈ st.2 ∨ ∃ e, e ∈ corpus ∧ label e = l.
Proof.
  revert st. induction corpus as [| e corpus IH]; intros st Hnd.
  - split; [done |]. intros l. cbn [foldl]. split; [auto |].
    intros [? | (e & He & _)]; [done | by apply not_elem_of_nil in He].
  - change (foldl encode_entry st (e :: corpus))
      with (foldl encode_entry (encode_entry st e) corpus).
    assert (Hls' : NoDup (encode_entry st e).2
                   ∧ ∀ l, l ∈ (encode_entry st e).2 ↔ l ∈ st.2 ∨ l = label e).
    { rewrite encode_entry_snd.
      destruct (stringInSlice (label e) st.2) eqn:Hin.
      - apply stringInSlice_spec in Hin. split; [done |].
        intros l. split; [auto | intros [? | ->]; done].
      - assert (label e ∉ st.2).
        { intros H. apply stringInSlice_spec in H. congruence. }
        split.
        + apply NoDup_app. split; [done |]. split.
          * intros x Hx [-> | []%not_elem_of_nil]%elem_of_cons. done.
          * apply NoDup_singleton.
        + intros l. rewrite elem_of_app, list_elem_of_singleton. done. }
    destruct Hls' as [Hnd' Hmem].
    destruct (IH (encode_entry st e) Hnd') as [Hn Hl].
    split; [exact Hn |]. intros l. rewrite Hl, Hmem.
    split.
    + intros [[? | ->] | (e' & He' & <-)].
      * by left.
      * right. exists e. split; [left | done].
      * right. exists e'. split; [by right | done].
    + intros [? | (e' & [-> | He']%elem_of_cons & <-)].
      * left. by left.
      * left. by right.
      * right. by exists e'.
Qed.

(** The label list built by [encode] holds the labels of the corpus,
    each once. *)
Theorem encode_labels (corpus : featureSet) :
  NoDup (labels (encode corpus))
  ∧ ∀ l, l ∈ labels (encode corpus) ↔ ∃ e, e ∈ corpus ∧ label e = l.
Proof.
  destruct (encode_labels_loop corpus (∅, []) (NoDup_nil_2)) as [Hn Hl].
  unfold encode.
  destruct (foldl encode_entry (∅, []) corpus) as [M ls]. cbn [snd] in *.
  unfold newMaxentClassifier. cbn [labels].
  split; [done |]. intros l. rewrite Hl. split; [| auto].
  intros [[]%not_elem_of_nil | ?]; done.
Qed.

(** ** Further properties of the empirical counts *)

(** Encoding a training example with its own label against the
    vocabulary built from its corpus fires all 17 indicators and gives
    the correction feature value 1: 18 entries of value 1, the last one
    at index [len(mapping)]. *)
Theorem encodeGIS_training_example (corpus : featureSet) (e : feature) :
  e ∈ corpus →
  let m := encode corpus in
  length (encodeGIS m (features e) (label e)) = 18%nat
  ∧ Forall (λ x, value x = 1%Z ∧ (key x ≤ size (mapping m))%nat)
      (encodeGIS m (features e) (label e))
  ∧ last (encodeGIS m (features e) (label e))
    = Some (mkEnc (size (mapping m)) 1).
Proof.
  intros He. cbn zeta.
  assert (Hne : corpus ≠ []) by (intros ->; by apply not_elem_of_nil in He).
  pose proof (encode_mapping corpus) as Hm.
  pose proof (encode_cardinality corpus Hne) as Hc.
  pose proof (m_encode_example_length corpus (encode corpus) Hm e He) as Hlen.
  split; [| split].
  - rewrite encodeGIS_eq, length_app, Hlen. done.
  - eapply Forall_impl;
      [exact (encodeGIS_example corpus (encode corpus) Hm Hc e He) |].
    intros x [? ?]. split; [done | lia].
  - rewrite encodeGIS_eq, last_snoc, Hlen, Hc. done.
Qed.

Lemma encodeGIS_training_example_witness :
  length (encodeGIS (encode c2_corpus) (features c2_example) (label c2_example))
  = 18%nat
  ∧ Forall (λ x, value x = 1%Z ∧ (key x ≤ size (mapping (encode c2_corpus)))%nat)
      (encodeGIS (encode c2_corpus) (features c2_example) (label c2_example))
  ∧ last (encodeGIS (encode c2_corpus) (features c2_example) (label c2_example))
    = Some (mkEnc (size (mapping (encode c2_corpus))) 1).
Proof.
  apply (encodeGIS_training_example c2_corpus c2_example). left.
Defined.

Lemma hits_app idx l1 l2 :
  hits idx (l1 ++ l2) = (hits idx l1 + hits idx l2)%nat.
Proof. unfold hits. by rewrite filter_app, length_app. Qed.

Lemma hits_none idx encs :
  Forall (λ x, key x ≠ idx) encs → hits idx encs = 0%nat.
Proof.
  induction 1 as [| x encs Hx _ IH]; [done |].
  rewrite hits_cons. by rewrite decide_False.
Qed.

Lemma hits_correction (corpus all : featureSet) :
  (∀ e, e ∈ corpus → e ∈ all) →
  hits (size (mapping (encode all))) (examples (encode all) corpus)
  = length corpus.
Proof.
  intros Hsub. induction corpus as [| e corpus IH]; [done |].
  unfold examples. rewrite bind_cons. fold (examples (encode all) corpus).
  rewrite hits_app, IH by (intros e' He'; apply Hsub; by right).
  assert (He : e ∈ all) by (apply Hsub; left).
  assert (Hne : all ≠ []) by (intros ->; by apply not_elem_of_nil in He).
  rewrite encodeGIS_eq, hits_app.
  rewrite (m_encode_example_length all (encode all) (encode_mapping all) e He).
  rewrite (encode_cardinality all Hne).
  rewrite hits_none.
  - unfold hits. cbn [filter list_filter]. rewrite decide_True by done. done.
  - apply Forall_forall. intros x Hx.
    apply elem_of_m_encode in Hx as (i & fname & v & Hi & Hv & ->).
    cbn [key]. rewrite encode_mapping in *.
    apply vocabulary_dense in Hv. lia.
Qed.

(** [empiricalCount] over the vocabulary of the corpus never panics. It
    returns a vector of [len(mapping)+1] finite counts, entry [i] being
    the number of encoded entries with key [i]; the count of the
    correction feature is the number of examples, and in a non-empty
    corpus every count is at least 1. *)
Theorem empiricalCount_spec (corpus : featureSet) :
  let m := encode corpus in
  ∃ rs, empiricalCount corpus m = Some (Num <$> rs)
        ∧ length rs = (size (mapping m) + 1)%nat
        ∧ (∀ i, (i < length rs)%nat →
                rs !! i = Some (INR (hits i (examples m corpus))))
        ∧ rs !! size (mapping m) = Some (INR (length corpus))
        ∧ (corpus ≠ [] → Forall (λ r, (1 <= r)%R) rs).
Proof.
  cbn zeta.
  destruct (empiricalCount_counts _ _ (examples_ok corpus))
    as (rs & Hrun & Hlen & Hget).
  exists rs. split; [done |]. split; [done |]. split; [| split].
  - intros i Hi. apply Hget. lia.
  - rewrite Hget by lia. by rewrite hits_correction.
  - intros Hne. apply Forall_lookup. intros i r Hr.
    apply lookup_lt_Some in Hr as Hi. rewrite Hget in Hr by lia.
    injection Hr as <-.
    destruct (index_attested corpus (encode corpus) (encode_mapping corpus)
                (encode_cardinality corpus Hne) i Hne ltac:(lia))
      as (e & He & Hin).
    assert (Hhit : (1 ≤ hits i (examples (encode corpus) corpus))%nat).
    { apply (hits_pos i 1). apply list_elem_of_bind. eauto. }
    apply le_INR in Hhit. simpl in Hhit. lra.
Qed.

(** In a non-empty corpus no index is unattested: [extracterFromData]
    enters the rounds with an empty unattested list and all weights 0. *)
Theorem nonempty_corpus_all_attested (corpus : featureSet) (s : gisSetup) :
  corpus ≠ [] → gisInit corpus = Some s →
  unattested s = []
  ∧ weights (model (classifier0 s))
    = replicate (size (mapping (encode corpus)) + 1) (Num 0).
Proof.
  intros Hne Hs.
  destruct (empiricalCount_counts _ _ (examples_ok corpus))
    as (rs & Hrun & Hlen & _).
  rewrite (gisInit_eq corpus _ Hrun) in Hs. injection Hs as <-.
  cbn [unattested classifier0 model newTrainedEntityExtracter setWeights weights].
  assert (Hu : filter (λ index, isZeroAt (Num <$> rs) index)
                 (seq 0 (length (Num <$> rs))) = []).
  { apply elem_of_nil_inv. intros i Hi.
    apply list_elem_of_filter in Hi as [Hz _].
    unfold isZeroAt, AtVec in Hz.
    destruct ((Num <$> rs) !! i) as [c |] eqn:Hc; [| done].
    rewrite (empirical_attested corpus _ i c Hne Hrun Hc) in Hz. done. }
  split; [done |]. unfold initialWeights. rewrite Hu. cbn [foldl].
  by rewrite length_fmap, Hlen.
Qed.

Lemma nonempty_corpus_all_attested_witness :
  ∃ s, gisInit c2_corpus = Some s
       ∧ unattested s = []
       ∧ weights (model (classifier0 s))
         = replicate (size (mapping (encode c2_corpus)) + 1) (Num 0).
Proof.
  destruct (empiricalCount_counts _ _ (examples_ok c2_corpus))
    as (rs & Hrun & _).
  eexists. split; [exact (gisInit_eq c2_corpus _ Hrun) |].
  apply (nonempty_corpus_all_attested c2_corpus _ ltac:(done)
           (gisInit_eq c2_corpus _ Hrun)).
Defined.

(** ** Training never panics *)

Lemma foldM_inv {A S : Type} (I : S → Prop) (f : S → A → option S)
    (l : list A) (s : S) :
  I s →
  (∀ s a, I s → a ∈ l → ∃ s', f s a = Some s' ∧ I s') →
  ∃ s', foldM f s l = Some s' ∧ I s'.
Proof.
  revert s. induction l as [| a l IH]; intros s Hs Hstep.
  - by exists s.
  - destruct (Hstep s a Hs ltac:(left)) as (s1 & Hf & Hs1).
    cbn [foldM]. rewrite Hf. cbn [mbind option_bind].
    apply IH; [done |]. intros s2 b Hs2 Hb. apply Hstep; [done | by right].
Qed.

Lemma encodeGIS_keys (m : binaryMaxentClassifier) feats lbl :
  (∀ k v, mapping m !! k = Some v → (v < size (mapping m))%nat) →
  Forall (λ x, (key x < size (mapping m) + 1)%nat) (encodeGIS m feats lbl).
Proof.
  intros Hlt. rewrite encodeGIS_eq. apply Forall_app. split.
  - apply Forall_forall. intros x Hx.
    apply elem_of_m_encode in Hx as (i & fname & v & _ & Hv & ->).
    cbn [key]. apply Hlt in Hv. lia.
  - repeat constructor. cbn [key]. lia.
Qed.

Lemma rawScore_ok (w : list float64) (vec : list encodedValue) :
  Forall (λ x, (key x < length w)%nat) vec → is_Some (rawScore w vec).
Proof.
  intros Hall. unfold rawScore.
  destruct (foldM_inv (λ _, True)
              (λ total entry,
                 w0 ← w !! key entry;
                 Some (fadd total (fmul w0 (of_int (value entry)))))
              vec (Num 0) I) as (t & -> & _); [| done].
  intros t x _ Hx. rewrite Forall_forall in Hall.
  destruct (lookup_lt_is_Some_2 w (key x) (Hall x Hx)) as [w0 ->].
  by eexists.
Qed.

Section NoPanic.
Variable rangeOrder : list (string * probEnc) → list (string * probEnc).
Hypothesis rangeOrder_perm : ∀ l, rangeOrder l ≡ₚ l.

Lemma probClassify_ok (e : entityExtracter) (feats : list string) :
  sized (model e) →
  ∃ pdist, probClassify rangeOrder e feats = Some pdist
           ∧ map_Forall (λ _ pe, Forall (λ x, (key x < size (mapping (model e)) + 1)%nat)
                                   (vec pe))
               (mappedProbDist.dict pdist).
Proof.
  intros [Hlt Hlen]. unfold probClassify.
  match goal with
  | |- context [foldM ?f ?s ?l] =>
      destruct (foldM_inv
                  (λ scores : gmap string probEnc,
                     map_Forall (λ _ pe, Forall (λ x, (key x < size (mapping (model e)) + 1)%nat)
                                           (vec pe)) scores)
                  f l s) as (scores & Hrun & Hall)
  end.
  - apply map_Forall_empty.
  - intros scores lbl Hsc _. cbn zeta.
    pose proof (encodeGIS_keys (model e) feats lbl Hlt) as Hk.
    destruct (rawScore_ok (weights (model e)) (encodeGIS (model e) feats lbl))
      as [total Ht].
    { by rewrite Hlen. }
    rewrite Ht. cbn [mbind option_bind]. eexists. split; [done |].
    by apply map_Forall_insert_2.
  - rewrite Hrun. cbn [mbind option_bind]. eexists. split; [done |].
    unfold newMappedProbDist.
    destruct (fle _ NegInf); cbn [mappedProbDist.dict];
      apply map_Forall_fmap; exact Hall.
Qed.

Lemma estCount_ok (e : entityExtracter) (corpus : featureSet) :
  sized (model e) →
  ∃ count, estCount rangeOrder e corpus (model e) = Some count
           ∧ length count = (size (mapping (model e)) + 1)%nat.
Proof.
  intros Hsized. unfold estCount.
  apply (foldM_inv (λ count, length count = (size (mapping (model e)) + 1)%nat)).
  { apply length_replicate. }
  intros count entry Hc _.
  destruct (probClassify_ok e (features entry) Hsized) as (pdist & -> & Hall).
  cbn [mbind option_bind].
  apply (foldM_inv (λ count, length count = (size (mapping (model e)) + 1)%nat));
    [done |].
  intros count1 [lbl pe] Hc1 Hkv. cbn [snd].
  unfold rangeDict in Hkv. rewrite rangeOrder_perm in Hkv.
  apply elem_of_map_to_list in Hkv. specialize (Hall lbl pe Hkv).
  cbn beta in Hall. rewrite Forall_forall in Hall.
  apply (foldM_inv (λ count, length count = (size (mapping (model e)) + 1)%nat));
    [done |].
  intros count2 enc Hc2 Henc. unfold AtVec, SetVec.
  destruct (lookup_lt_is_Some_2 count2 (key enc)) as [old ->].
  { rewrite Hc2. by apply Hall. }
  cbn [mbind option_bind]. rewrite decide_True by (rewrite Hc2; by apply Hall).
  eexists. split; [done |]. by rewrite length_insert.
Qed.

Lemma gisRound_ok (corpus : featureSet) (s : gisSetup) (e : entityExtracter) :
  sized (model e) →
  length (empfreq s) = length (weights (model e)) →
  Forall (λ idx, (idx < length (weights (model e)))%nat) (unattested s) →
  ∃ e', gisRound rangeOrder corpus s e = Some e'
        ∧ mapping (model e') = mapping (model e)
        ∧ labels (model e') = labels (model e)
        ∧ cardinality (model e') = cardinality (model e)
        ∧ length (weights (model e')) = length (weights (model e)).
Proof.
  intros Hsized Hemp Hun. pose proof Hsized as [_ Hlen]. unfold gisRound.
  destruct (estCount_ok e corpus Hsized) as (est & -> & Hest).
  cbn [mbind option_bind].
  destruct (foldM_inv (λ est, length est = length (weights (model e)))
              (λ est idx, old ← AtVec est idx; SetVec est idx (fadd old (Num 1)))
              (unattested s) est) as (est1 & -> & Hest1).
  { congruence. }
  { intros est0 idx He0 Hidx. rewrite Forall_forall in Hun.
    unfold AtVec, SetVec.
    destruct (lookup_lt_is_Some_2 est0 idx) as [old ->].
    { rewrite He0. by apply Hun. }
    cbn [mbind option_bind]. rewrite decide_True by (rewrite He0; by apply Hun).
    eexists. split; [done |]. by rewrite length_insert. }
  cbn [mbind option_bind]. unfold SubVec.
  rewrite decide_True by (by rewrite length_map, Hest1).
  cbn [mbind option_bind].
  set (est2 := ScaleVec (cInv s) (zip_with fsub (empfreq s) (map Log2 est1))).
  assert (Hest2 : length est2 = length (weights (model e))).
  { subst est2. unfold ScaleVec.
    rewrite length_map, length_zip_with, length_map. lia. }
  destruct (foldM_inv (λ w : list float64, length w = length (weights (model e)))
              (λ (w : list float64) index,
                 old ← w !! index;
                 e0 ← AtVec est2 index;
                 Some (<[index := fadd old e0]> w))
              (seq 0 (length (weights (model e)))) (weights (model e)))
    as (w' & -> & Hw').
  { done. }
  { intros w index Hw Hidx. apply elem_of_seq in Hidx. unfold AtVec.
    destruct (lookup_lt_is_Some_2 w index) as [old ->]; [lia |].
    destruct (lookup_lt_is_Some_2 est2 index) as [e0 ->]; [lia |].
    cbn [mbind option_bind]. eexists. split; [done |].
    by rewrite length_insert. }
  cbn [mbind option_bind]. eexists. split; [done |].
  by cbn [model setWeights mapping labels cardinality weights].
Qed.

Lemma gisLoop_ok (rounds : nat) (corpus : featureSet) (s : gisSetup)
    (e : entityExtracter) :
  sized (model e) →
  length (empfreq s) = length (weights (model e)) →
  Forall (λ idx, (idx < length (weights (model e)))%nat) (unattested s) →
  ∃ e', gisLoop rangeOrder rounds corpus s e = Some e'
        ∧ mapping (model e') = mapping (model e)
        ∧ labels (model e') = labels (model e)
        ∧ cardinality (model e') = cardinality (model e)
        ∧ length (weights (model e')) = length (weights (model e)).
Proof.
  revert e. induction rounds as [| n IH]; intros e Hsized Hemp Hun.
  - by exists e.
  - destruct (gisRound_ok corpus s e Hsized Hemp Hun)
      as (e1 & Hr & Hm & Hl & Hc & Hw).
    cbn [gisLoop]. rewrite Hr. cbn [mbind option_bind].
    destruct (IH e1) as (e' & Hrun & Hm' & Hl' & Hc' & Hw').
    + destruct Hsized as [Hlt Hlen]. split; rewrite ?Hm; [done | congruence].
    + congruence.
    + by rewrite Hw.
    + exists e'. split; [done |]. repeat split; congruence.
Qed.

Lemma trainRounds_returns (corpus : featureSet) (rounds : nat) :
  ∃ e, trainRounds rangeOrder rounds corpus = Some e
       ∧ mapping (model e) = mapping (encode corpus)
       ∧ labels (model e) = labels (encode corpus)
       ∧ cardinality (model e) = cardinality (encode corpus)
       ∧ length (weights (model e)) = (size (mapping (encode corpus)) + 1)%nat.
Proof.
  destruct (empiricalCount_counts _ _ (examples_ok corpus))
    as (rs & Hrun & Hlen & _).
  unfold trainRounds. rewrite (gisInit_eq corpus _ Hrun).
  cbn [mbind option_bind classifier0].
  set (e0 := newTrainedEntityExtracter
               (setWeights (encode corpus) (initialWeights (Num <$> rs)))).
  assert (Hw0 : length (weights (model e0)) = (size (mapping (encode corpus)) + 1)%nat).
  { subst e0. cbn [model newTrainedEntityExtracter setWeights weights].
    by rewrite initialWeights_length, length_fmap. }
  destruct (gisLoop_ok rounds corpus
              (mkSetup e0 (map Log2 (Num <$> rs))
                 (filter (λ index, isZeroAt (Num <$> rs) index)
                    (seq 0 (length (Num <$> rs))))
                 (fdiv (Num 1) (of_int (cardinality (encode corpus)))))
              e0) as (e & He & Hm & Hl & Hc & Hw).
  - split; [| exact Hw0].
    subst e0. cbn [model newTrainedEntityExtracter setWeights mapping].
    rewrite encode_mapping. apply vocabulary_dense.
  - cbn [empfreq]. by rewrite length_map, length_fmap, Hw0.
  - cbn [unattested]. apply Forall_forall. intros idx Hidx.
    apply list_elem_of_filter in Hidx as [_ Hidx]. apply elem_of_seq in Hidx.
    rewrite length_fmap in Hidx. lia.
  - exists e. split; [exact He |]. by rewrite Hm, Hl, Hc, Hw.
Qed.

(** For every corpus, every number of rounds and every order of
    visiting the label dictionaries, training returns a classifier: no
    index is out of range.  The classifier has the mapping, labels and
    cardinality of [encode] and one weight per index.  In particular
    [extracterFromData], which runs 100 rounds, returns. *)
Theorem extracterFromData_never_panics (corpus : featureSet) (rounds : nat) :
  (∃ e, trainRounds rangeOrder rounds corpus = Some e
        ∧ mapping (model e) = mapping (encode corpus)
        ∧ labels (model e) = labels (encode corpus)
        ∧ cardinality (model e) = cardinality (encode corpus)
        ∧ length (weights (model e))
          = (size (mapping (encode corpus)) + 1)%nat)
  ∧ is_Some (extracterFromData rangeOrder corpus).
Proof.
  split; [apply trainRounds_returns |].
  destruct (trainRounds_returns corpus 100) as (e & He & _).
  unfold extracterFromData. by rewrite He.
Qed.
End NoPanic.

Lemma extracterFromData_never_panics_witness :
  (∃ e, trainRounds (λ l, l) 100 c2_corpus = Some e
        ∧ mapping (model e) = mapping (encode c2_corpus)
        ∧ labels (model e) = labels (encode c2_corpus)
        ∧ cardinality (model e) = cardinality (encode c2_corpus)
        ∧ length (weights (model e))
          = (size (mapping (encode c2_corpus)) + 1)%nat)
  ∧ is_Some (extracterFromData (λ l, l) c2_corpus).
Proof.
  exact (extracterFromData_never_panics (λ l, l) (λ l, reflexivity l)
           c2_corpus 100).
Defined.

(** ** [chunk] on BIO labels *)

Lemma Split_second (s : string) (sep : ascii) :
  ContainsByte s sep = true → is_Some (Split s sep !! 1%nat).
Proof.
  induction s as [| c s IH]; cbn [ContainsByte Split]; [done |].
  destruct (Ascii.eqb c sep); cbn [orb].
  - intros _. pose proof (Split_nonempty s sep) as Hne.
    destruct (Split s sep) as [| f fs]; [done | by eexists].
  - intros Hc. destruct (IH Hc) as [f1 Hf1].
    destruct (Split s sep) as [| f fs]; [done |]. by exists f1.
Qed.

Lemma coalesce_returns (p : Token.t) (ps : list Token.t) :
  ContainsByte (Token.Label p) "-" = true → is_Some (coalesce (p :: ps)).
Proof.
  intros Hp. unfold coalesce, parseEntities. cbn [map].
  destruct (stringInSlice _ _ && _); [by eexists |].
  cbn [lookup list_lookup mbind option_bind].
  destruct (Split_second _ _ Hp) as [f ->]. by eexists.
Qed.

Lemma eqb_string_true (a b : string) : (a =? b)%string = true ↔ a = b.
Proof. apply String.eqb_eq. Qed.

Lemma chunk_body_safe (st : chunkState) (tok : Token.t) :
  chunk_safe st → bioLabel tok →
  ∃ st', chunk_body st tok = Some st' ∧ chunk_safe st'.
Proof.
  intros (Hidx & Hend & Hfirst) Hbio. unfold chunk_body.
  assert (Hcont : ∃ c, continues st tok = Some c
                       ∧ (c = true → parts st = [] →
                          Token.Label tok ≠ "O")).
  { unfold continues.
    destruct (negb (Token.Label tok =? "O")%string
              && negb (Token.Label tok =? end_ st)%string) eqn:Hc1.
    - eexists. split; [done |]. intros _ _ Heq. by rewrite Heq in Hc1.
    - destruct (0 <? idx st)%nat eqn:Hpos.
      + apply Nat.ltb_lt in Hpos.
        destruct (lookup_lt_is_Some_2 (parts st) (idx st - 1)) as [prev ->];
          [lia |].
        eexists. split; [done |]. intros _ Hnil. rewrite Hnil in Hidx.
        cbn in Hidx. lia.
      + eexists. split; [done |]. done. }
  destruct Hcont as (c & -> & Hc). cbn [mbind option_bind].
  destruct c.
  - eexists. split; [done |]. repeat split; cbn [idx parts end_].
    + rewrite length_app. cbn. lia.
    + intros Hnil. by destruct (parts st).
    + intros p. destruct (parts st) as [| p0 ps] eqn:Hparts.
      * cbn. intros [= <-]. destruct Hbio as [HO | Hdash]; [| done].
        by destruct (Hc eq_refl eq_refl).
      * cbn. intros [= <-]. by apply (Hfirst p0).
  - destruct (closes st tok) eqn:Hcl; [| by exists st].
    assert (Hparts : ∃ p ps,
               (if negb (Token.Label tok =? "O")%string
                then parts st ++ [tok] else parts st) = p :: ps
               ∧ ContainsByte (Token.Label p) "-" = true).
    { destruct (parts st) as [| p0 ps] eqn:Hp.
      - specialize (Hend eq_refl). unfold closes in Hcl. rewrite Hend in Hcl.
        destruct (Token.Label tok =? "O")%string eqn:HO.
        + apply eqb_string_true in HO. rewrite HO in Hcl. done.
        + cbn [negb]. exists tok, []. split; [done |].
          destruct Hbio as [Heq | Hdash]; [| done].
          rewrite Heq in HO. done.
      - exists p0. destruct (negb _); eexists; (split; [done |]);
          by apply (Hfirst p0). }
    destruct Hparts as (p & ps & -> & Hp).
    destruct (coalesce_returns p ps Hp) as [e ->]. cbn [mbind option_bind].
    eexists. split; [done |]. repeat split; cbn [idx parts end_]; done.
Qed.

(** On tokens whose labels follow the BIO scheme (each is O or has a
    dash), [chunk] returns: it never reads past the open tokens and
    never splits a label without a dash. *)
Theorem chunk_returns_on_bio_labels (tokens : list Token.t) :
  Forall bioLabel tokens → is_Some (chunk tokens).
Proof.
  intros Hall. unfold chunk, chunk_loop.
  destruct (foldM_inv chunk_safe chunk_body tokens (mkChunk [] "" [] 0))
    as (st & -> & _).
  - repeat split; cbn; done.
  - intros st tok Hst Htok. rewrite Forall_forall in Hall.
    by apply chunk_body_safe; [| apply Hall].
  - by eexists.
Qed.

Lemma chunk_returns_on_bio_labels_witness : is_Some (chunk c9_tokens).
Proof.
  apply chunk_returns_on_bio_labels. unfold c9_tokens.
  constructor; [by right |]. constructor; [by right |].
  constructor; [by left | constructor].
Defined.

Lemma chunk_body_outside (tok : Token.t) :
  Token.Label tok = "O" →
  chunk_body (mkChunk [] "" [] 0) tok = Some (mkChunk [] "" [] 0).
Proof.
  intros HO. unfold chunk_body, continues, closes. cbn [end_ idx].
  rewrite HO. reflexivity.
Qed.

(** Tokens that are all labelled O yield no entity. *)
Theorem chunk_all_outside (tokens : list Token.t) :
  Forall (λ tok, Token.Label tok = "O") tokens → chunk tokens = Some [].
Proof.
  intros Hall. unfold chunk, chunk_loop.
  assert (Hrun : foldM chunk_body (mkChunk [] "" [] 0) tokens
                 = Some (mkChunk [] "" [] 0)).
  { induction Hall as [| tok l HO _ IH]; [done |].
    cbn [foldM]. rewrite (chunk_body_outside tok HO). exact IH. }
  by rewrite Hrun.
Qed.

Lemma chunk_all_outside_witness :
  chunk [Token.mk "the" "DT" "O"; Token.mk "cat" "NN" "O"] = Some [].
Proof. apply chunk_all_outside. by repeat constructor. Defined.

(** ** When feature extraction returns *)

Section ExtractProps.
Variable ToLower : string → string.
Variable Title : string → string.
Variable ParseFloatOk : string → bool.
Variable enWordList : list string.

Lemma extract_cases (i : nat) (ctx : list Token.t) (history : list string) :
  match extract ToLower Title ParseFloatOk enWordList i ctx history with
  | Some feats =>
      (i < length ctx)%nat ∧ (i = 0%nat ∨ (i ≤ length history)%nat)
      ∧ length feats = 17%nat
  | None => (length ctx ≤ i)%nat ∨ ((0 < i)%nat ∧ (length history < i)%nat)
  end.
Proof.
  unfold extract.
  destruct (ctx !! i) as [tok |] eqn:Hi; simpl;
    [| left; by apply lookup_ge_None].
  apply lookup_lt_Some in Hi.
  destruct (i =? 0)%nat eqn:H0; simpl.
  - apply Nat.eqb_eq in H0.
    destruct (i =? length ctx - 1)%nat eqn:Hlast; simpl.
    + repeat split; [done | by left].
    + apply Nat.eqb_neq in Hlast.
      destruct (lookup_lt_is_Some_2 ctx (i + 1)) as [next ->]; [lia |].
      simpl. repeat split; [done | by left].
  - apply Nat.eqb_neq in H0.
    destruct (lookup_lt_is_Some_2 ctx (i - 1)) as [prev ->]; [lia |]. simpl.
    destruct (history !! (i - 1)%nat) as [h |] eqn:Hh; simpl;
      [| right; apply lookup_ge_None in Hh; lia].
    apply lookup_lt_Some in Hh.
    destruct (i =? 1)%nat; simpl.
    + destruct (i =? length ctx - 1)%nat eqn:Hlast; simpl.
      * repeat split; [done | right; lia].
      * apply Nat.eqb_neq in Hlast.
        destruct (lookup_lt_is_Some_2 ctx (i + 1)) as [next ->]; [lia |].
        simpl. repeat split; [done | right; lia].
    + destruct (i =? length ctx - 1)%nat eqn:Hlast; simpl.
      * repeat split; [done | right; lia].
      * apply Nat.eqb_neq in Hlast.
        destruct (lookup_lt_is_Some_2 ctx (i + 1)) as [next ->]; [lia |].
        simpl. repeat split; [done | right; lia].
Qed.

(** [extract] returns its 17 features exactly when [i] is the index of a
    token and, for [i > 0], the history holds the label of the previous
    token; otherwise an index is out of range.  The next token is read
    only when [i] is not the last index, so it never is the cause. *)
Theorem extract_returns_iff (i : nat) (ctx : list Token.t)
    (history : list string) :
  match extract ToLower Title ParseFloatOk enWordList i ctx history with
  | Some feats =>
      (i < length ctx)%nat ∧ (i = 0%nat ∨ (i ≤ length history)%nat)
      ∧ length feats = 17%nat
  | None => (length ctx ≤ i)%nat ∨ ((0 < i)%nat ∧ (length history < i)%nat)
  end.
Proof. apply extract_cases. Qed.

(** [extractFeatures] returns exactly when the history has a label for
    every token.  Its result then has one entry per token: the label is
    the history's label at that index and the features are those of
    [extract] there.  With a shorter history it panics. *)
Theorem extractFeatures_returns_iff (tokens : list Token.t)
    (history : list string) :
  match extractFeatures ToLower Title ParseFloatOk enWordList tokens history with
  | Some fs =>
      (length tokens ≤ length history)%nat
      ∧ length fs = length tokens
      ∧ ∀ i f, fs !! i = Some f →
          history !! i = Some (label f)
          ∧ extract ToLower Title ParseFloatOk enWordList i tokens history
            = Some (features f)
  | None => (length history < length tokens)%nat
  end.
Proof.
  unfold extractFeatures.
  destruct (mapM _ _) as [fs |] eqn:Hrun.
  - apply mapM_Some_1 in Hrun.
    pose proof (Forall2_length _ _ _ Hrun) as Hlen. rewrite length_seq in Hlen.
    assert (Hat : ∀ i f, fs !! i = Some f →
              history !! i = Some (label f)
              ∧ extract ToLower Title ParseFloatOk enWordList i tokens history
                = Some (features f)).
    { intros i f Hf.
      destruct (Forall2_lookup_r _ _ _ _ _ Hrun Hf) as (x & Hx & Hbody).
      apply lookup_seq in Hx as [-> _]. cbn [Nat.add] in Hbody.
      destruct (history !! i) as [l |]; simpl in Hbody; [| done].
      destruct (extract _ _ _ _ i tokens history) as [ft |]; simpl in Hbody;
        [| done].
      by inversion Hbody. }
    split; [| split; [done | exact Hat]].
    destruct (decide (length tokens = 0%nat)) as [-> | Hne]; [lia |].
    destruct (lookup_lt_is_Some_2 fs (length tokens - 1)) as [f Hf]; [lia |].
    destruct (Hat _ _ Hf) as [Hh _]. apply lookup_lt_Some in Hh. lia.
  - apply mapM_None_1 in Hrun. apply Exists_exists in Hrun as (x & Hx & Hbody).
    apply elem_of_seq in Hx.
    destruct (history !! x) as [l |] eqn:Hh; simpl in Hbody;
      [| apply lookup_ge_None in Hh; lia].
    pose proof (extract_cases x tokens history) as Hex.
    destruct (extract _ _ _ _ x tokens history) as [ft |]; simpl in Hbody;
      [done |].
    lia.
Qed.
End ExtractProps.

(** ** When the tagger returns *)

Lemma addRow_returns (weights scores : list float64) (lbl : nat) :
  match addRow scores lbl weights with
  | Some scores' =>
      length scores' = length scores
      ∧ (weights = [] ∨ (lbl + length weights ≤ length scores)%nat)
  | None => weights ≠ [] ∧ (length scores < lbl + length weights)%nat
  end.
Proof.
  revert scores lbl. induction weights as [| w rest IH]; intros scores lbl.
  - cbn [addRow]. split; [done | by left].
  - cbn [addRow].
    destruct (scores !! lbl) as [old |] eqn:Hold; cbn [mbind option_bind].
    + apply lookup_lt_Some in Hold.
      specialize (IH (<[lbl := fadd old w]> scores) (S lbl)).
      destruct (addRow _ (S lbl) rest) as [scores' |].
      * destruct IH as [Hlen Hfit]. rewrite length_insert in Hlen, Hfit.
        split; [done |]. right. cbn [length].
        destruct Hfit as [-> | Hfit]; cbn [length]; lia.
      * destruct IH as [Hne Hlong]. rewrite length_insert in Hlong.
        split; [done |]. cbn [length]. lia.
    + apply lookup_ge_None in Hold. split; [done |]. cbn [length]. lia.
Qed.

Lemma maxFrom_range (scores : list float64) (lbl class : nat) (mx : float64) :
  maxFrom scores lbl class mx = class
  ∨ (lbl ≤ maxFrom scores lbl class mx < lbl + length scores)%nat.
Proof.
  revert lbl class mx. induction scores as [| v rest IH]; intros lbl class mx.
  - by left.
  - cbn [maxFrom length]. destruct (flt mx v).
    + destruct (IH (S lbl) lbl v) as [-> | H]; right; lia.
    + destruct (IH (S lbl) class mx) as [-> | H]; [by left | right; lia].
Qed.

Lemma max_in_range (scores : list float64) :
  scores ≠ [] → (max scores < length scores)%nat.
Proof.
  intros Hne. unfold max.
  destruct (maxFrom_range scores 0 0 NegInf) as [-> | H]; [| lia].
  destruct scores; [done | cbn [length]; lia].
Qed.

Lemma predict_loop_returns (m : averagedPerceptron) (feats : list string)
    (scores : list float64) :
  match foldM (λ scores feat,
                 match linearWeights m !! feat with
                 | None => Some scores
                 | Some weights => addRow scores 0 weights
                 end) scores feats with
  | Some scores' =>
      length scores' = length scores
      ∧ ∀ feat ws, feat ∈ feats → linearWeights m !! feat = Some ws →
                   ws = [] ∨ (length ws ≤ length scores)%nat
  | None =>
      ∃ feat ws, feat ∈ feats ∧ linearWeights m !! feat = Some ws
                 ∧ ws ≠ [] ∧ (length scores < length ws)%nat
  end.
Proof.
  revert scores. induction feats as [| feat feats IH]; intros scores.
  - cbn [foldM]. split; [done |]. intros feat ws Hin. by apply elem_of_nil in Hin.
  - cbn [foldM].
    destruct (linearWeights m !! feat) as [row |] eqn:Hrow.
    + pose proof (addRow_returns row scores 0) as Hadd.
      destruct (addRow scores 0 row) as [scores1 |]; cbn [mbind option_bind].
      * destruct Hadd as [Hlen1 Hfit]. specialize (IH scores1).
        destruct (foldM _ scores1 feats) as [scores' |].
        -- destruct IH as [Hlen IHfit]. split; [congruence |].
           intros f ws Hin Hf. apply elem_of_cons in Hin as [-> | Hin].
           ++ rewrite Hrow in Hf. injection Hf as <-.
              destruct Hfit as [-> | Hfit]; [by left | right; lia].
           ++ rewrite <- Hlen1. exact (IHfit f ws Hin Hf).
        -- destruct IH as (f & ws & Hin & Hf & Hne & Hlong).
           exists f, ws.
           split; [apply elem_of_cons; by right |].
           split; [done |]. split; [done | lia].
      * destruct Hadd as [Hne Hlong]. exists feat, row.
        split; [apply elem_of_cons; by left |].
        split; [done |]. split; [done | lia].
    + cbn [mbind option_bind]. specialize (IH scores).
      destruct (foldM _ scores feats) as [scores' |].
      * destruct IH as [Hlen IHfit]. split; [done |].
        intros f ws Hin Hf. apply elem_of_cons in Hin as [-> | Hin].
        -- by rewrite Hrow in Hf.
        -- exact (IHfit f ws Hin Hf).
      * destruct IH as (f & ws & Hin & Hf & Hne & Hlong).
        exists f, ws.
        split; [apply elem_of_cons; by right |]. by repeat split.
Qed.

Lemma predict_returns (m : averagedPerceptron) (feats : list string) :
  is_Some (predict m feats)
  ↔ classes m ≠ []
    ∧ ∀ feat ws, feat ∈ feats → linearWeights m !! feat = Some ws →
                 (length ws ≤ length (classes m))%nat.
Proof.
  unfold predict.
  pose proof (predict_loop_returns m feats
                (replicate (length (classes m)) (Num 0))) as Hloop.
  destruct (foldM _ _ feats) as [scores |]; cbn [mbind option_bind].
  - destruct Hloop as [Hlen Hfit]. rewrite length_replicate in Hlen, Hfit.
    split.
    + intros [tag Htag]. apply lookup_lt_Some in Htag.
      split; [intros Hnil; rewrite Hnil in Htag; cbn in Htag; lia |].
      intros feat ws Hin Hf. destruct (Hfit feat ws Hin Hf) as [-> | H];
        [cbn; lia | done].
    + intros [Hne _]. apply lookup_lt_is_Some_2. rewrite <- Hlen.
      apply max_in_range. intros ->. cbn in Hlen.
      by destruct (classes m).
  - destruct Hloop as (feat & ws & Hin & Hf & Hne & Hlong).
    rewrite length_replicate in Hlong. split.
    + by intros [? ?].
    + intros [_ Hfit]. specialize (Hfit feat ws Hin Hf). lia.
Qed.

(** [predict] returns exactly when the model has a class and no weight
    row of a feature at hand is longer than the class list; otherwise an
    index is out of range. *)
Theorem predict_returns_iff (m : averagedPerceptron) (feats : list string) :
  is_Some (predict m feats)
  ↔ classes m ≠ []
    ∧ ∀ feat ws, feat ∈ feats → linearWeights m !! feat = Some ws →
                 (length ws ≤ length (classes m))%nat.
Proof. apply predict_returns. Qed.

Lemma featurize_returns (i : nat) (ctx : list string) (w p1 p2 : string) :
  (i + 5 ≤ length ctx)%nat → w ≠ "" → is_Some (featurize i ctx w p1 p2).
Proof.
  intros Hi Hw. unfold featurize.
  replace (Nat.min (length ctx - 2) (i + 2)) with (i + 2)%nat by lia.
  destruct (length ctx <? 2)%nat eqn:H2; [apply Nat.ltb_lt in H2; lia |].
  destruct (i + 2 <? 2)%nat eqn:H3; [apply Nat.ltb_lt in H3; lia |].
  destruct (lookup_lt_is_Some_2 ctx (i + 2 - 1)) as [cm1 ->]; [lia |].
  destruct (lookup_lt_is_Some_2 ctx (i + 2 + 1)) as [cp1 ->]; [lia |].
  destruct w as [| w0 w]; [done |].
  destruct (lookup_lt_is_Some_2 ctx (i + 2)) as [c0 ->]; [lia |].
  destruct (lookup_lt_is_Some_2 ctx (i + 2 - 2)) as [cm2 ->]; [lia |].
  destruct (lookup_lt_is_Some_2 ctx (i + 2 + 2)) as [cp2 ->]; [lia |].
  cbn [mbind option_bind]. by eexists.
Qed.

Lemma tagWord_returns (pt : PerceptronTagger) (ctx : list string) (i : nat)
    (word p1 p2 : string) :
  fittingRows (tagger_model pt) →
  (i + 5 ≤ length ctx)%nat → word ≠ "" →
  is_Some (tagWord pt ctx i word p1 p2).
Proof.
  intros [Hne Hrows] Hi Hw. unfold tagWord.
  destruct (word =? "-")%string; [by eexists |].
  destruct (bool_decide (word ∈ emoticons)); [by eexists |].
  destruct (HasPrefix word "@"); [by eexists |].
  destruct (fullMatch none word); [by eexists |].
  destruct (fullMatch keep word); [by eexists |].
  destruct (tagMap (tagger_model pt) !! word); [by eexists |].
  destruct (featurize_returns i ctx word p1 p2 Hi Hw) as [feats ->].
  cbn [mbind option_bind]. apply predict_returns. split; [done |].
  intros feat ws _ Hf. exact (Hrows feat ws Hf).
Qed.

Lemma Tag_loop_returns (pt : PerceptronTagger) (ctx : list string)
    (tokens : list Token.t) (st : tagState) (i : nat) :
  fittingRows (tagger_model pt) →
  (i + length tokens + 4 ≤ length ctx)%nat →
  Forall (λ tok, Token.Text tok ≠ "") tokens →
  is_Some (Tag_loop pt ctx st i tokens).
Proof.
  intros Hfit. revert st i.
  induction tokens as [| tok rest IH]; intros st i Hlen Hall.
  - by eexists.
  - apply Forall_cons in Hall as [Htok Hall]. cbn [length] in Hlen.
    cbn [Tag_loop]. unfold Tag_body.
    destruct (tagWord_returns pt ctx i (Token.Text tok) (p1 st) (p2 st))
      as [tag ->]; [done | lia | done |].
    cbn [mbind option_bind]. apply IH; [lia | done].
Qed.

Section TagReturns.
Variable ToLower : string → string.

(** With a model whose tables fit together (a class exists, no weight
    row is longer than the class list), [Tag] returns on every sentence
    without an empty token: the context window never leaves the padded
    sentence and the scores are indexed within the class list. *)
Theorem Tag_returns (pt : PerceptronTagger) (tokens : list Token.t) :
  fittingRows (tagger_model pt) →
  Forall (λ tok, Token.Text tok ≠ "") tokens →
  is_Some (Tag ToLower pt tokens).
Proof.
  intros Hfit Hall. unfold Tag.
  destruct (Tag_loop_returns pt (tagContext ToLower tokens) tokens
              (mkTagState "-START-" "-START2-" []) 0 Hfit) as [st ->].
  - unfold tagContext. rewrite !length_app, length_map. cbn [length]. lia.
  - done.
  - by eexists.
Qed.
End TagReturns.

Lemma Tag_returns_witness : is_Some (Tag (λ s, s) c8_tagger c8_tokens).
Proof.
  apply Tag_returns.
  - split; [done |]. unfold c8_tagger. cbn [tagger_model linearWeights classes].
    apply map_Forall_insert_2; [cbn; lia | apply map_Forall_empty].
  - unfold c8_tokens. by repeat constructor.
Defined.
